(** * The opaque key/value cache of [lib/Basic/Cache.cpp]

    A shallow embedding of [swift::sys::CacheImpl] and of the
    [llvm::DenseMapInfo<DefaultCacheKey>] specialisation it installs, together
    with the properties of the cache that the design document lists.

    - Pointers ([void *]), [uintptr_t] and [size_t] are natural numbers [N].
    - The operations are computations in a state monad over the heap cell
      behind the handle and a log of callback invocations.  The two destroy
      callbacks are effects of the caller; every invocation is appended to
      the log, so that "invoked exactly once" is a statement about that log.
    - Undefined behaviour (a deleted handle, a reserved key) is the failure
      of the monad.
    - The operations are sequential: the mutex is a hold count that every
      operation takes and gives back. *)

From Stdlib Require Import NArith String Lia.
From stdpp Require Import base option list.
From Stdlib Require Import Ascii.

Set Default Proof Using "Type".
Local Open Scope N_scope.

Abbreviation ptr := N (only parsing).
Abbreviation uintptr_t := N (only parsing).
Abbreviation size_t := N (only parsing).
Abbreviation nullptr := 0%N (only parsing).

(** ** [llvm::DenseMapInfo] and [llvm::DenseMap]

    LLVM is a dependency of the repository, not part of it.  [DenseMapInfo] is
    the trait a key type has to implement; [DenseMap] is modelled at the level
    of its interface: the live buckets in iteration order.  A lookup selects a
    bucket through the hash value of the key and accepts it on [isEqual];
    buckets whose key hashes differently are never handed out.  The iteration
    order of a [DenseMap] is unspecified, and no statement below depends on
    where a new bucket is placed.  The functions below give the behaviour
    for [legal] keys; the callers check that precondition. *)
Module llvm.

Record DenseMapInfo (T : Type) : Type := {
  getEmptyKey : T;
  getTombstoneKey : T;
  getHashValue : T → N;
  isEqual : T → T → bool
}.
Arguments getEmptyKey {T} _.
Arguments getTombstoneKey {T} _.
Arguments getHashValue {T} _ _.
Arguments isEqual {T} _ _ _.

Section DenseMap.
Context {KeyT ValueT : Type} (KeyInfoT : DenseMapInfo KeyT).

Abbreviation BucketT := (KeyT * ValueT)%type.

(** The precondition of every lookup and insertion: [Val] is neither the
    empty nor the tombstone key, which mark the unused buckets.
    [LookupBucketFor] asserts it; without the assertion the probe would take
    an unused bucket for the bucket of [Val]. *)
Definition legal (Val : KeyT) : bool :=
  negb (isEqual KeyInfoT Val (getEmptyKey KeyInfoT))
  && negb (isEqual KeyInfoT Val (getTombstoneKey KeyInfoT)).

(** The test of [LookupBucketFor(Val, ...)] on one live bucket: the bucket is
    on the probe sequence of the hash of [Val], and
    [KeyInfoT::isEqual(Val, ThisBucket->getFirst())] holds. *)
Definition BucketMatches (Val : KeyT) (B : BucketT) : bool :=
  (getHashValue KeyInfoT Val =? getHashValue KeyInfoT B.1)
  && isEqual KeyInfoT Val B.1.

(** [find(Val)]: an iterator is a bucket position, [end()] is [None]. *)
Definition find (Val : KeyT) (Buckets : list BucketT) : option (nat * BucketT) :=
  list_find (λ B, BucketMatches Val B) Buckets.

(** [erase(iterator)] *)
Definition erase (Pos : nat) (Buckets : list BucketT) : list BucketT :=
  delete Pos Buckets.

(** [operator[](Val)], that is [FindAndConstruct]: the position of the
    bucket of [Val], after adding a bucket with a value-initialised
    [ValueT] when there is none. *)
Definition subscript (init : ValueT) (Val : KeyT) (Buckets : list BucketT)
  : nat * list BucketT :=
  match find Val Buckets with
  | Some (Pos, _) => (Pos, Buckets)
  | None => (0%nat, (Val, init) :: Buckets)
  end.

(** Assignment through the reference [operator[]] returned. *)
Definition assign (Pos : nat) (V : ValueT) (Buckets : list BucketT) : list BucketT :=
  alter (λ B, (B.1, V)) Pos Buckets.

(** [clear()] *)
Definition clear (Buckets : list BucketT) : list BucketT := [].

End DenseMap.

End llvm.

(** ** The data of the cache *)

(** Modelled from the spec: the struct [CacheImpl::CallBacks], which
    [swift/Basic/Cache.h] declares and [Cache.cpp] only uses.  It is the
    callback table of the design document, a bundle of four functions:
    [hash(key) -> integer] and [equal(keyA, keyB) -> bool], here
    [keyHashCB] and [keyIsEqualCB] under the names [Cache.cpp] calls them by,
    and [destroyKey(key)], [destroyValue(value)], which are the [Call]s
    [keyDestroyCB] and [valueDestroyCB] below.  The [UserData] argument is
    [nullptr] at every call and is left out. *)
Record CallBacks : Type := {
  keyHashCB : ptr → uintptr_t;
  keyIsEqualCB : ptr → ptr → bool
}.

Inductive Call : Type :=
| keyDestroyCB (Key : ptr)
| valueDestroyCB (Value : ptr).

Global Instance Call_eq_dec : EqDecision Call.
Proof. solve_decision. Defined.

Module DefaultCacheKey.
(** [CBs] is a pointer to the callbacks of the owning cache; it is [nullptr]
    ([None]) in the empty and in the tombstone key only. *)
Record t : Type := mk {
  Key : ptr;
  CBs : option CallBacks
}.
End DefaultCacheKey.

Module DefaultCache.
(** [Mux] is the number of times the mutex is held (LLVM's [sys::Mutex] is
    recursive); it is 0 between two operations. *)
Record t : Type := mk {
  Mux : nat;
  CBs : CallBacks;
  Entries : list (DefaultCacheKey.t * ptr)
}.
End DefaultCache.

(** ** [llvm::DenseMapInfo<DefaultCacheKey>] *)
Section DefaultCacheKeyInfo.
(** [DenseMapInfo<void *>] and [DenseMapInfo<uintptr_t>] come from LLVM. *)
Variable VoidPtrInfo : llvm.DenseMapInfo ptr.
Variable UIntPtrInfo : llvm.DenseMapInfo uintptr_t.

Definition getEmptyKey : DefaultCacheKey.t :=
  DefaultCacheKey.mk (llvm.getEmptyKey VoidPtrInfo) None.

Definition getTombstoneKey : DefaultCacheKey.t :=
  DefaultCacheKey.mk (llvm.getTombstoneKey VoidPtrInfo) None.

(** [Val.CBs->keyHashCB(Val.Key, nullptr)]; a key without callbacks is never
    hashed by [DenseMap], the model gives it the hash of 0. *)
Definition getHashValue (Val : DefaultCacheKey.t) : N :=
  let Hash :=
    match DefaultCacheKey.CBs Val with
    | Some CBs => keyHashCB CBs (DefaultCacheKey.Key Val)
    | None => 0
    end in
  llvm.getHashValue UIntPtrInfo Hash.

Definition isEqual (LHS RHS : DefaultCacheKey.t) : bool :=
  if DefaultCacheKey.Key LHS =? DefaultCacheKey.Key RHS then true
  else if (DefaultCacheKey.Key LHS =? llvm.getEmptyKey VoidPtrInfo)
       || (DefaultCacheKey.Key LHS =? llvm.getTombstoneKey VoidPtrInfo)
       || (DefaultCacheKey.Key RHS =? llvm.getEmptyKey VoidPtrInfo)
       || (DefaultCacheKey.Key RHS =? llvm.getTombstoneKey VoidPtrInfo)
  then false
  else
    match DefaultCacheKey.CBs LHS with
    | Some CBs => keyIsEqualCB CBs (DefaultCacheKey.Key LHS) (DefaultCacheKey.Key RHS)
    | None => false (* not reached by the two keys that carry [nullptr] *)
    end.

Definition DefaultCacheKeyInfo : llvm.DenseMapInfo DefaultCacheKey.t := {|
  llvm.getEmptyKey := getEmptyKey;
  llvm.getTombstoneKey := getTombstoneKey;
  llvm.getHashValue := getHashValue;
  llvm.isEqual := isEqual
|}.

End DefaultCacheKeyInfo.

(** ** The state and its monad

    [Impl] is the member of [CacheImpl] of that name, with the heap cell it
    points to: [None] once it was deleted.
    [Calls] is the log of destroy callbacks, oldest first.  A computation
    returns [None] when it has undefined behaviour: it dereferences a deleted
    [Impl], or hands one of the two reserved keys to the [DenseMap]. *)
Record World : Type := {
  Impl : option DefaultCache.t;
  Calls : list Call
}.

Definition M (A : Type) : Type := World → option (A * World).

Global Instance M_ret : MRet M := λ A (a : A) (w : World), Some (a, w).

Global Instance M_bind : MBind M := λ A B (f : A → M B) (m : M A) (w : World),
  match m w with
  | Some (a, w') => f a w'
  | None => None
  end.

(** [*static_cast<DefaultCache *>(Impl)] *)
Definition deref : M DefaultCache.t := λ w,
  match Impl w with
  | Some DCache => Some (DCache, w)
  | None => None
  end.

Definition modify (f : DefaultCache.t → DefaultCache.t) : M unit := λ w,
  match Impl w with
  | Some DCache => Some (tt, {| Impl := Some (f DCache); Calls := Calls w |})
  | None => None
  end.

(** A precondition of a library call: undefined behaviour when it fails. *)
Definition require (b : bool) : M unit := λ w,
  if b then Some (tt, w) else None.

(** A call of one of the destroy callbacks. *)
Definition invoke (c : Call) : M unit := λ w,
  Some (tt, {| Impl := Impl w; Calls := Calls w ++ [c] |}).

Definition acquire : M unit :=
  modify (λ c, DefaultCache.mk (S (DefaultCache.Mux c)) (DefaultCache.CBs c) (DefaultCache.Entries c)).

Definition release : M unit :=
  modify (λ c, DefaultCache.mk (pred (DefaultCache.Mux c)) (DefaultCache.CBs c) (DefaultCache.Entries c)).

(** [llvm::sys::ScopedLock L(DCache.Mux);] in front of [body]: the mutex is
    acquired, and released on every way out of the scope. *)
Definition ScopedLock {A} (body : M A) : M A :=
  acquire;; r ← body; release;; mret r.

Definition setEntries (f : list (DefaultCacheKey.t * ptr) → list (DefaultCacheKey.t * ptr)) : M unit :=
  modify (λ c, DefaultCache.mk (DefaultCache.Mux c) (DefaultCache.CBs c) (f (DefaultCache.Entries c))).

(** [delete static_cast<DefaultCache *>(Impl)] *)
Definition delete_Impl : M unit := λ w,
  match Impl w with
  | Some _ => Some (tt, {| Impl := None; Calls := Calls w |})
  | None => None
  end.

(** A range-based [for] over a snapshot of the buckets. *)
Fixpoint for_each {X} (Range : list X) (body : X → M unit) : M unit :=
  match Range with
  | [] => mret tt
  | Entry :: Rest => body Entry;; for_each Rest body
  end.

(** ** [swift::sys::CacheImpl] *)
Module CacheImpl.

Section WithLLVM.
Variable VoidPtrInfo : llvm.DenseMapInfo ptr.
Variable UIntPtrInfo : llvm.DenseMapInfo uintptr_t.

Abbreviation KeyInfo := (DefaultCacheKeyInfo VoidPtrInfo UIntPtrInfo).

(** [create] returns a freshly allocated [DefaultCache]; [Name] is unused. *)
Definition create (Name : string) (CBs : CallBacks) : option DefaultCache.t :=
  Some (DefaultCache.mk 0 CBs []).

(** [DCache.Entries.find(CKey)] *)
Definition Entries_find (CKey : DefaultCacheKey.t)
  : M (option (nat * (DefaultCacheKey.t * ptr))) :=
  DCache ← deref;
  require (llvm.legal KeyInfo CKey);;
  mret (llvm.find KeyInfo CKey (DefaultCache.Entries DCache)).

(** The body of [setAndRetain] under the lock, in its two steps.  First the
    entry of an equal key, if there is one, is destroyed and erased. *)
Definition setAndRetain_evict (CKey : DefaultCacheKey.t) : M unit :=
  Entry ← Entries_find CKey;
  match Entry with
  | Some (Pos, B) =>
      invoke (keyDestroyCB (DefaultCacheKey.Key B.1));;
      invoke (valueDestroyCB B.2);;
      setEntries (llvm.erase Pos)
  | None => mret tt
  end.

(** Then [DCache.Entries[CKey] = Value;]. *)
Definition setAndRetain_store (CKey : DefaultCacheKey.t) (Value : ptr) : M unit :=
  require (llvm.legal KeyInfo CKey);;
  setEntries (λ Entries,
    let '(Pos, Entries') := llvm.subscript KeyInfo nullptr CKey Entries in
    llvm.assign Pos Value Entries').

Definition setAndRetain (Key Value : ptr) (Cost : size_t) : M unit :=
  DCache ← deref;
  ScopedLock (
    let CKey := DefaultCacheKey.mk Key (Some (DefaultCache.CBs DCache)) in
    setAndRetain_evict CKey;;
    setAndRetain_store CKey Value).

(** The result is the returned [bool] with the contents of [*Value_out]
    after the call. *)
Definition getAndRetain (Key : ptr) (Value_out : ptr) : M (bool * ptr) :=
  DCache ← deref;
  ScopedLock (
    let CKey := DefaultCacheKey.mk Key (Some (DefaultCache.CBs DCache)) in
    Entry ← Entries_find CKey;
    match Entry with
    | Some (Pos, B) => mret (true, B.2)
    | None => mret (false, Value_out)
    end).

Definition releaseValue (Value : ptr) : M unit :=
  mret tt.

Definition remove (Key : ptr) : M bool :=
  DCache ← deref;
  ScopedLock (
    let CKey := DefaultCacheKey.mk Key (Some (DefaultCache.CBs DCache)) in
    Entry ← Entries_find CKey;
    match Entry with
    | Some (Pos, B) =>
        invoke (keyDestroyCB (DefaultCacheKey.Key B.1));;
        invoke (valueDestroyCB B.2);;
        setEntries (llvm.erase Pos);;
        mret true
    | None => mret false
    end).

Definition removeAll : M unit :=
  DCache ← deref;
  ScopedLock (
    Range ← (c ← deref; mret (DefaultCache.Entries c));
    for_each Range (λ Entry,
      invoke (keyDestroyCB (DefaultCacheKey.Key Entry.1));;
      invoke (valueDestroyCB Entry.2));;
    setEntries llvm.clear).

Definition destroy : M unit :=
  removeAll;;
  delete_Impl.

End WithLLVM.
End CacheImpl.

(** ** A concrete instance: LLVM on a 64-bit target, integer keys

    The callbacks of the scenario of the design document: [hash(x) = x],
    [equal(a, b) = (a == b)]. *)
Definition LLVM_VoidPtrInfo : llvm.DenseMapInfo ptr := {|
  llvm.getEmptyKey := N.land (N.shiftl (2 ^ 64 - 1) 12) (2 ^ 64 - 1);
  llvm.getTombstoneKey := N.land (N.shiftl (2 ^ 64 - 2) 12) (2 ^ 64 - 1);
  llvm.getHashValue := λ PtrVal,
    let Val := PtrVal mod 2 ^ 32 in N.lxor (N.shiftr Val 4) (N.shiftr Val 9);
  llvm.isEqual := N.eqb
|}.

Definition LLVM_UIntPtrInfo : llvm.DenseMapInfo uintptr_t := {|
  llvm.getEmptyKey := 2 ^ 64 - 1;
  llvm.getTombstoneKey := 2 ^ 64 - 2;
  llvm.getHashValue := λ Val, (Val * 37) mod 2 ^ 32;
  llvm.isEqual := N.eqb
|}.

Definition IntCBs : CallBacks := {|
  keyHashCB := λ x, x;
  keyIsEqualCB := N.eqb
|}.

(** Keys that are equal when they agree modulo 8: distinct pointers can be
    equal keys. *)
Definition Mod8CBs : CallBacks := {|
  keyHashCB := λ x, x mod 8;
  keyIsEqualCB := λ a b, a mod 8 =? b mod 8
|}.

(** A cache with these callbacks that holds one entry. *)
Definition Mod8Cache : DefaultCache.t :=
  DefaultCache.mk 0 Mod8CBs [(DefaultCacheKey.mk 3 (Some Mod8CBs), 7)].

(** A cache with these callbacks that holds two entries. *)
Definition Mod8Pair : DefaultCache.t :=
  DefaultCache.mk 0 Mod8CBs
    [(DefaultCacheKey.mk 3 (Some Mod8CBs), 7); (DefaultCacheKey.mk 4 (Some Mod8CBs), 8)].

(** Callbacks that break the contract: equal keys with different hashes. *)
Definition BadHashCBs : CallBacks := {|
  keyHashCB := λ x, x;
  keyIsEqualCB := λ a b, a mod 8 =? b mod 8
|}.

(** ** Clients, and the notions the properties are stated with *)

(** One call of a client on the handle. *)
Inductive Op : Type :=
| OpSet (Key Value : ptr) (Cost : size_t)
| OpGet (Key : ptr) (Value_out : ptr)
| OpRelease (Value : ptr)
| OpRemove (Key : ptr)
| OpRemoveAll.

Definition OpKey (o : Op) : option ptr :=
  match o with
  | OpSet Key _ _ | OpGet Key _ | OpRemove Key => Some Key
  | OpRelease _ | OpRemoveAll => None
  end.

Section Notions.
Variable VoidPtrInfo : llvm.DenseMapInfo ptr.
Variable UIntPtrInfo : llvm.DenseMapInfo uintptr_t.

Definition exec (o : Op) : M unit :=
  match o with
  | OpSet Key Value Cost => CacheImpl.setAndRetain VoidPtrInfo UIntPtrInfo Key Value Cost
  | OpGet Key Value_out => CacheImpl.getAndRetain VoidPtrInfo UIntPtrInfo Key Value_out;; mret tt
  | OpRelease Value => CacheImpl.releaseValue Value
  | OpRemove Key => CacheImpl.remove VoidPtrInfo UIntPtrInfo Key;; mret tt
  | OpRemoveAll => CacheImpl.removeAll
  end.

Fixpoint run (ops : list Op) : M unit :=
  match ops with
  | [] => mret tt
  | o :: rest => exec o;; run rest
  end.

(** A key a client may pass: a pointer to an object, hence none of the two
    pointers [DenseMap] reserves for its empty and deleted buckets. *)
Definition valid_key (Key : ptr) : Prop :=
  Key ≠ llvm.getEmptyKey VoidPtrInfo ∧ Key ≠ llvm.getTombstoneKey VoidPtrInfo.

Definition valid_op (o : Op) : Prop :=
  match OpKey o with
  | Some Key => valid_key Key
  | None => True
  end.

(** The contract of the callback table: [equal] is symmetric and transitive
    (pointer-identical keys are equal without asking it), and equal keys hash
    equal. *)
Record Contract (CBs : CallBacks) : Prop := {
  equal_sym : ∀ a b, keyIsEqualCB CBs a b = true → keyIsEqualCB CBs b a = true;
  equal_trans : ∀ a b c, keyIsEqualCB CBs a b = true → keyIsEqualCB CBs b c = true →
                         keyIsEqualCB CBs a c = true;
  hash_equal : ∀ a b, keyIsEqualCB CBs a b = true → keyHashCB CBs a = keyHashCB CBs b
}.

(** The key [setAndRetain], [getAndRetain] and [remove] build from [Key]. *)
Definition CKey (DCache : DefaultCache.t) (Key : ptr) : DefaultCacheKey.t :=
  DefaultCacheKey.mk Key (Some (DefaultCache.CBs DCache)).

(** No key equivalent to [Key] is present. *)
Definition absent (Key : ptr) (DCache : DefaultCache.t) : Prop :=
  Forall (λ B, isEqual VoidPtrInfo (CKey DCache Key) B.1 = false) (DefaultCache.Entries DCache).

(** The entry [B] lies in the class of [Key]: same pointer, or [equal] says so. *)
Definition in_class (CBs : CallBacks) (Key : ptr) (B : DefaultCacheKey.t * ptr) : bool :=
  (DefaultCacheKey.Key B.1 =? Key) || keyIsEqualCB CBs Key (DefaultCacheKey.Key B.1).

(** The entry [B] lies in the class of the equal keys [Key1] and [Key2]. *)
Definition class (CBs : CallBacks) (Key1 Key2 : ptr) (B : DefaultCacheKey.t * ptr) : bool :=
  in_class CBs Key1 B || in_class CBs Key2 B.

(** The destroy callbacks one entry receives. *)
Definition destroyed (B : DefaultCacheKey.t * ptr) : list Call :=
  [keyDestroyCB (DefaultCacheKey.Key B.1); valueDestroyCB B.2].

(** A key built by [CKey] from a valid pointer, for a cache with callbacks [CBs]. *)
Definition good (CBs : CallBacks) (K : DefaultCacheKey.t) : Prop :=
  DefaultCacheKey.CBs K = Some CBs ∧ valid_key (DefaultCacheKey.Key K).

(** Every stored key is one. *)
Definition stored_keys_ok (DCache : DefaultCache.t) : Prop :=
  Forall (λ B, good (DefaultCache.CBs DCache) B.1) (DefaultCache.Entries DCache).

(** No two buckets hold equal keys. *)
Fixpoint distinct_keys (Entries : list (DefaultCacheKey.t * ptr)) : Prop :=
  match Entries with
  | [] => True
  | B :: Rest =>
      Forall (λ B', isEqual VoidPtrInfo B.1 B'.1 = false) Rest ∧ distinct_keys Rest
  end.

(** What the eviction at the start of [setAndRetain] leaves of the buckets,
    and the callbacks it invokes. *)
Definition evicted (K : DefaultCacheKey.t) (Entries : list (DefaultCacheKey.t * ptr))
  : list (DefaultCacheKey.t * ptr) :=
  match llvm.find (DefaultCacheKeyInfo VoidPtrInfo UIntPtrInfo) K Entries with
  | Some (Pos, _) => llvm.erase Pos Entries
  | None => Entries
  end.

Definition evicted_calls (K : DefaultCacheKey.t) (Entries : list (DefaultCacheKey.t * ptr))
  : list Call :=
  match llvm.find (DefaultCacheKeyInfo VoidPtrInfo UIntPtrInfo) K Entries with
  | Some (_, B) => destroyed B
  | None => []
  end.

(** The invariant of a cache between two operations. *)
Record wf (DCache : DefaultCache.t) : Prop := {
  wf_contract : Contract (DefaultCache.CBs DCache);
  wf_stored : stored_keys_ok DCache;
  wf_distinct : distinct_keys (DefaultCache.Entries DCache)
}.

End Notions.

(** [destroy] in the words of the design document: [removeAll], followed by
    releasing the storage of the instance. *)
Definition removeAll_then_release : M unit := λ w,
  match CacheImpl.removeAll w with
  | Some (_, w') => Some (tt, {| Impl := None; Calls := Calls w' |})
  | None => None
  end.

Definition live (DCache : DefaultCache.t) (Log : list Call) : World :=
  {| Impl := Some DCache; Calls := Log |}.

Definition withEntries (DCache : DefaultCache.t) (Entries : list (DefaultCacheKey.t * ptr))
  : DefaultCache.t :=
  DefaultCache.mk (DefaultCache.Mux DCache) (DefaultCache.CBs DCache) Entries.

(** The destroy callbacks owed to the pairs a client handed to
    [setAndRetain] in the calls [ops]. *)
Definition set_calls (ops : list Op) : list Call :=
  flat_map (λ o, match o with
                 | OpSet Key Value _ => [keyDestroyCB Key; valueDestroyCB Value]
                 | _ => []
                 end) ops.

(** ** [swift::version::Version] of [lib/Basic/Version.cpp]

    The class is declared in [swift/Basic/Version.h]; [Version.cpp] reads and
    writes its member [Components], a vector of unsigned numbers, directly and
    through [empty()], [size()] and [operator[]]. *)
Module version.

Record Version : Type := mk {
  Components : list N
}.

Definition empty (v : Version) : bool :=
  match Components v with
  | [] => true
  | _ :: _ => false
  end.

Definition size (v : Version) : nat := length (Components v).

(** [operator[]]; it is only called with [i < size()]. *)
Definition at_ (v : Version) (i : nat) : N := nth i (Components v) 0.

(** The loop [for (size_t i = 0; i < n; ++i)] of [operator>=], from [i] on
    with [n - i = todo]. *)
Fixpoint ge_loop (lhs rhs : Version) (i todo : nat) : bool :=
  match todo with
  | O => true
  | S todo' =>
      let lv := if (i <? size lhs)%nat then at_ lhs i else 0 in
      let rv := if (i <? size rhs)%nat then at_ rhs i else 0 in
      if lv <? rv then false
      else if rv <? lv then true
      else ge_loop lhs rhs (S i) todo'
  end.

(** [operator>=] *)
Definition ge (lhs rhs : Version) : bool :=
  if empty lhs then true
  else
    let n := max (size lhs) (size rhs) in
    ge_loop lhs rhs 0 n.

(** The loop of [operator==]. *)
Fixpoint eq_loop (lhs rhs : Version) (i todo : nat) : bool :=
  match todo with
  | O => true
  | S todo' =>
      let lv := if (i <? size lhs)%nat then at_ lhs i else 0 in
      let rv := if (i <? size rhs)%nat then at_ rhs i else 0 in
      if negb (lv =? rv) then false
      else eq_loop lhs rhs (S i) todo'
  end.

(** [operator==] *)
Definition eq (lhs rhs : Version) : bool :=
  let n := max (size lhs) (size rhs) in
  eq_loop lhs rhs 0 n.

Definition asMajorVersion (v : Version) : Version :=
  if empty v then mk []
  else mk ([] ++ [at_ v 0]).

(** *** Parsing and printing

    [llvm::StringRef] is a [string].  [split], [getAsInteger] and the
    printing of a number by [raw_ostream] are LLVM's; they are given here
    for the arguments [Version.cpp] calls them with. *)

(** [StringRef::split(char)]: the text before the first [Separator] and the
    text after it; the whole text and nothing when there is none. *)
Fixpoint split (Separator : ascii) (Str : string) : string * string :=
  match Str with
  | EmptyString => (EmptyString, EmptyString)
  | String c Rest =>
      if Ascii.eqb c Separator then (EmptyString, Rest)
      else let '(Before, After) := split Separator Rest in (String c Before, After)
  end.

(** The value of a decimal digit. *)
Definition CharVal (c : ascii) : option N :=
  let n := N_of_ascii c in
  if (48 <=? n) && (n <=? 57) then Some (n - 48) else None.

(** The loop of [getAsInteger(10, uint64_t &)]: the digits are accumulated in
    a 64-bit [Result]; a character that is no digit and a [Result] that
    overflows are errors ([None]). *)
Fixpoint consumeUnsignedInteger (Str : string) (Result : N) : option N :=
  match Str with
  | EmptyString => Some Result
  | String c Rest =>
      match CharVal c with
      | None => None
      | Some Val =>
          let PrevResult := Result in
          let Result := (Result * 10 + Val) mod 2 ^ 64 in
          if Result / 10 <? PrevResult then None
          else consumeUnsignedInteger Rest Result
      end
  end.

(** [Str.getAsInteger(10, ComponentNumber)]: [None] when it returns [true],
    which is its error; the empty text is an error. *)
Definition getAsInteger (Str : string) : option N :=
  match Str with
  | EmptyString => None
  | _ => consumeUnsignedInteger Str 0
  end.

(** [raw_ostream::operator<<] of an unsigned number: the decimal digits,
    produced from the last one (a [do ... while (Value)] loop; 20 digits hold
    every 64-bit number). *)
Fixpoint write_digits (fuel : nat) (Value : N) (Buffer : string) : string :=
  match fuel with
  | O => Buffer
  | S fuel' =>
      let Buffer := String (ascii_of_N (48 + Value mod 10)) Buffer in
      let Value := Value / 10 in
      if Value =? 0 then Buffer else write_digits fuel' Value Buffer
  end.

Definition write_unsigned (Value : N) : string := write_digits 20 Value EmptyString.

(** [SourceLoc] (of [swift/Basic/SourceLoc.h]) is a pointer into the source
    text, null when invalid; a [SourceRange] is a pair of them. *)
Definition isValid (Loc : N) : bool := negb (Loc =? 0).
Definition getAdvancedLoc (Loc : N) (ByteOffset : nat) : N := Loc + N.of_nat ByteOffset.
Definition NoRange : N * N := (0, 0).

(** The [while] loop of [splitVersionComponents]; [VersionString] gets
    shorter in every round, [fuel] bounds the rounds.  The result is the
    vector and the text that is left. *)
Fixpoint split_loop (fuel : nat) (SplitComponents : list (string * (N * N)))
    (VersionString : string) (Loc Start End : N) : list (string * (N * N)) * string :=
  match fuel with
  | O => (SplitComponents, VersionString)
  | S fuel' =>
      match VersionString with
      | EmptyString => (SplitComponents, VersionString)
      | _ =>
          let '(SplitComponent, Rest) := split "." VersionString in
          let End := if isValid Loc then getAdvancedLoc End (String.length SplitComponent)
                     else End in
          let Range := if isValid Loc then (Start, End) else NoRange in
          let End := if isValid Loc then getAdvancedLoc End 1 else End in
          let Start := End in
          split_loop fuel' (SplitComponents ++ [(SplitComponent, Range)]) Rest Loc Start End
      end
  end.

Definition splitVersionComponents (SplitComponents : list (string * (N * N)))
    (VersionString : string) (Loc : N) (skipQuote : bool)
  : list (string * (N * N)) * string :=
  let Start := if isValid Loc && skipQuote then getAdvancedLoc Loc 1 else Loc in
  let End := Start in
  split_loop (String.length VersionString) SplitComponents VersionString Loc Start End.

Section Parsing.
(** The width of the element type of [Components]: [push_back] converts the
    64-bit [ComponentNumber] to it. *)
Variable ComponentBits : N.

Definition push_back (v : Version) (ComponentNumber : N) : Version :=
  mk (Components v ++ [ComponentNumber mod 2 ^ ComponentBits]).

(** The [for] loop of [parseVersionString] over the split components. *)
Fixpoint parseVersionString_loop (SplitComponents : list (string * (N * N)))
    (TheVersion : Version) (isValidVersion : bool) : Version * bool :=
  match SplitComponents with
  | [] => (TheVersion, isValidVersion)
  | (SplitComponent, Range) :: More =>
      match SplitComponent with
      | EmptyString => parseVersionString_loop More TheVersion false
      | _ =>
          match getAsInteger SplitComponent with
          | Some ComponentNumber =>
              parseVersionString_loop More (push_back TheVersion ComponentNumber) isValidVersion
          | None => parseVersionString_loop More TheVersion false
          end
      end
  end.

Definition parseVersionString (VersionString : string) (Loc : N) : option Version :=
  match VersionString with
  | EmptyString => None
  | _ =>
      let '(SplitComponents, _) := splitVersionComponents [] VersionString Loc false in
      let '(TheVersion, isValidVersion) :=
        parseVersionString_loop SplitComponents (mk []) true in
      if isValidVersion then Some TheVersion else None
  end.

(** [checkVersionComponent]: its parameter is an [unsigned], 32 bits wide;
    [false] when [llvm_unreachable] is hit. *)
Definition checkVersionComponent (CV : Version) (ComponentNumber : N) : bool :=
  let Component := ComponentNumber mod 2 ^ 32 in
  let limit := if (size CV =? 0)%nat then 9223371 else 999 in
  negb (limit <? Component).

(** The [for] loop of [parseCompilerVersionString], from index [i] on;
    [None] when [llvm_unreachable] is hit. *)
Fixpoint parseCompilerVersionString_loop (SplitComponents : list (string * (N * N)))
    (i : nat) (CV : Version) : option Version :=
  match SplitComponents with
  | [] => Some CV
  | (SplitComponent, Range) :: More =>
      match SplitComponent with
      | EmptyString => None
      | _ =>
          if (i =? 1)%nat then
            if String.eqb SplitComponent "*"
            then parseCompilerVersionString_loop More (S i) (push_back CV 0)
            else None
          else
            match getAsInteger SplitComponent with
            | Some ComponentNumber =>
                if checkVersionComponent CV ComponentNumber
                then parseCompilerVersionString_loop More (S i) (push_back CV ComponentNumber)
                else None
            | None => None
            end
      end
  end.

Definition parseCompilerVersionString (VersionString : string) (Loc : N) : option Version :=
  let '(SplitComponents, _) := splitVersionComponents [] VersionString Loc true in
  match parseCompilerVersionString_loop SplitComponents 0 (mk []) with
  | Some CV => if (5 <? size CV)%nat then None else Some CV
  | None => None
  end.

End Parsing.

(** The loop of [operator<<], from index [i] on with [e - i = todo]. *)
Fixpoint print_loop (version : Version) (i todo : nat) (os : string) : string :=
  match todo with
  | O => os
  | S todo' =>
      print_loop version (S i) todo'
        (os ++ String "." EmptyString ++ write_unsigned (at_ version i))
  end.

(** [operator<<(raw_ostream &, const Version &)]: the text of the stream
    after the call. *)
Definition print (os : string) (version : Version) : string :=
  if empty version then os
  else print_loop version 1 (size version - 1) (os ++ write_unsigned (at_ version 0)).

(** The loop of [preprocessorDefinition], in 64-bit arithmetic. *)
Fixpoint versionConstant_loop (componentWeights : list N) (v : Version)
    (i todo : nat) (versionConstant : N) : N :=
  match todo with
  | O => versionConstant
  | S todo' =>
      versionConstant_loop componentWeights v (S i) todo'
        ((versionConstant + (nth i componentWeights 0 * at_ v i) mod 2 ^ 64) mod 2 ^ 64)
  end.

Definition preprocessorDefinition (v : Version) (macroName : string)
    (componentWeights : list N) : string :=
  let versionConstant :=
    versionConstant_loop componentWeights v 0
      (min (length componentWeights) (size v)) 0 in
  "-D" ++ macroName ++ String "=" EmptyString ++ write_unsigned versionConstant.

(** *** Notions for the properties of parsing *)

(** A text of decimal digits only. *)
Fixpoint all_digits (Str : string) : bool :=
  match Str with
  | EmptyString => true
  | String c Rest => (if CharVal c is Some _ then true else false) && all_digits Rest
  end.

(** A text of decimal digits and dots only. *)
Fixpoint digits_or_dots (Str : string) : bool :=
  match Str with
  | EmptyString => true
  | String c Rest =>
      ((if CharVal c is Some _ then true else false) || Ascii.eqb c ".")
      && digits_or_dots Rest
  end.

(** No dot occurs in the text. *)
Fixpoint dot_free (Str : string) : bool :=
  match Str with
  | EmptyString => true
  | String c Rest => negb (Ascii.eqb c ".") && dot_free Rest
  end.

(** The number a text of decimal digits denotes: the digits after [Acc],
    the most significant first, with no bound on the result. *)
Fixpoint decimal_from (Acc : N) (Str : string) : N :=
  match Str with
  | EmptyString => Acc
  | String c Rest => decimal_from (Acc * 10 + (N_of_ascii c - 48)) Rest
  end.

Definition decimal (Str : string) : N := decimal_from 0 Str.

(** The texts with a dot between each two of them. *)
Fixpoint join (Parts : list string) : string :=
  match Parts with
  | [] => EmptyString
  | [Part] => Part
  | Part :: More => Part ++ String "." (join More)
  end.

End version.

(** * [include/swift/Basic/CharInfo.h] *)

Module charinfo.

(** A character is its byte, a number below 256; arithmetic on [char]
    is done in [int] and the result converted back, which keeps the byte
    of the sum. *)
Definition CHAR_HORZ_WS : N := 0x0001.
Definition CHAR_VERT_WS : N := 0x0002.
Definition CHAR_SPACE : N := 0x0004.
Definition CHAR_DIGIT : N := 0x0008.
Definition CHAR_XLETTER : N := 0x0010.
Definition CHAR_UPPER : N := 0x0020.
Definition CHAR_LOWER : N := 0x0040.
Definition CHAR_UNDER : N := 0x0080.
Definition CHAR_PERIOD : N := 0x0100.
Definition CHAR_RAWDEL : N := 0x0200.
Definition CHAR_PUNCT : N := 0x0400.

Definition CHAR_XUPPER : N := N.lor CHAR_XLETTER CHAR_UPPER.
Definition CHAR_XLOWER : N := N.lor CHAR_XLETTER CHAR_LOWER.

Section Table.
(** [InfoTable] is declared [extern] in the header; its 256 entries are
    defined in another file. *)
Variable InfoTable : N → N.

Definition isDigit (c : N) : bool :=
  negb (N.land (InfoTable c) CHAR_DIGIT =? 0).

Definition isLetter (c : N) : bool :=
  negb (N.land (InfoTable c) (N.lor CHAR_UPPER CHAR_LOWER) =? 0).

Definition isLowercase (c : N) : bool :=
  negb (N.land (InfoTable c) CHAR_LOWER =? 0).

Definition isUppercase (c : N) : bool :=
  negb (N.land (InfoTable c) CHAR_UPPER =? 0).

(** [c + 'a' - 'A'], as a [char] again. *)
Definition toLowercase (c : N) : N :=
  if isUppercase c then (c + 97 - 65) mod 256 else c.

(** [c + 'A' - 'a'], as a [char] again: the difference is negative, and the
    byte of [c - 32] is the byte of [c + 256 - 32]. *)
Definition toUppercase (c : N) : N :=
  if isLowercase c then (c + 256 + 65 - 97) mod 256 else c.

(** What the comments at the flags say of the table, for the two flags of
    the case of a letter: [CHAR_UPPER] is set for [A-Z], [CHAR_LOWER] for
    [a-z]. *)
Definition documented_case : Prop :=
  ∀ c, c < 256 →
    (isUppercase c = true ↔ 65 ≤ c ≤ 90) ∧ (isLowercase c = true ↔ 97 ≤ c ≤ 122).

End Table.

Definition between (lo hi c : N) (flag : N) : N :=
  if (lo <=? c) && (c <=? hi) then flag else 0.

(** A table that follows the comments at the flags for digits, letters,
    underscore and period. *)
Definition AsciiInfoTable (c : N) : N :=
  N.lor (between 48 57 c CHAR_DIGIT)
    (N.lor (between 65 70 c CHAR_XUPPER)
       (N.lor (between 71 90 c CHAR_UPPER)
          (N.lor (between 97 102 c CHAR_XLOWER)
             (N.lor (between 103 122 c CHAR_LOWER)
                (N.lor (between 95 95 c CHAR_UNDER) (between 46 46 c CHAR_PERIOD)))))).

End charinfo.

(** * Properties *)

Section Properties.
Variable VoidPtrInfo : llvm.DenseMapInfo ptr.
Variable UIntPtrInfo : llvm.DenseMapInfo uintptr_t.

Abbreviation KeyInfo := (DefaultCacheKeyInfo VoidPtrInfo UIntPtrInfo).
Abbreviation setAndRetain := (CacheImpl.setAndRetain VoidPtrInfo UIntPtrInfo).
Abbreviation getAndRetain := (CacheImpl.getAndRetain VoidPtrInfo UIntPtrInfo).
Abbreviation remove := (CacheImpl.remove VoidPtrInfo UIntPtrInfo).
Abbreviation find := (llvm.find KeyInfo).

Implicit Types (DCache : DefaultCache.t) (Log : list Call) (Key Value : ptr).
Implicit Types (Entries : list (DefaultCacheKey.t * ptr)) (B : DefaultCacheKey.t * ptr).

Arguments llvm.legal : simpl never.

Ltac run_M :=
  unfold CacheImpl.setAndRetain, CacheImpl.getAndRetain, CacheImpl.remove,
    CacheImpl.removeAll, CacheImpl.destroy, CacheImpl.releaseValue;
  unfold CacheImpl.setAndRetain_evict, CacheImpl.setAndRetain_store;
  unfold CacheImpl.Entries_find, ScopedLock;
  unfold acquire, release, setEntries, modify, deref, invoke, require, delete_Impl,
    live, withEntries, mbind, M_bind, mret, M_ret; simpl.

(** ** [DenseMapInfo<DefaultCacheKey>] as [DenseMap] needs it *)

Lemma good_CKey DCache Key :
  valid_key VoidPtrInfo Key → good VoidPtrInfo (DefaultCache.CBs DCache) (CKey DCache Key).
Proof. by split. Qed.

Lemma isEqual_refl (K : DefaultCacheKey.t) : isEqual VoidPtrInfo K K = true.
Proof. unfold isEqual. by rewrite N.eqb_refl. Qed.

Lemma isEqual_same_Key (K K' : DefaultCacheKey.t) :
  DefaultCacheKey.Key K = DefaultCacheKey.Key K' → isEqual VoidPtrInfo K K' = true.
Proof. intros E. unfold isEqual. by rewrite E, N.eqb_refl. Qed.

Lemma isEqual_good CBs (K K' : DefaultCacheKey.t) :
  good VoidPtrInfo CBs K → valid_key VoidPtrInfo (DefaultCacheKey.Key K') →
  isEqual VoidPtrInfo K K' =
  (DefaultCacheKey.Key K =? DefaultCacheKey.Key K')
  || keyIsEqualCB CBs (DefaultCacheKey.Key K) (DefaultCacheKey.Key K').
Proof.
  intros [HC [H1 H2]] [H3 H4]. unfold isEqual. rewrite HC.
  destruct (N.eqb_spec (DefaultCacheKey.Key K) (DefaultCacheKey.Key K')); [done|].
  apply N.eqb_neq in H1, H2, H3, H4. by rewrite H1, H2, H3, H4.
Qed.

(** A key of a client never compares equal to the empty or the tombstone key,
    in either order, and no callback is consulted for that. *)
Lemma isEqual_sentinel (K : DefaultCacheKey.t) :
  valid_key VoidPtrInfo (DefaultCacheKey.Key K) →
  isEqual VoidPtrInfo K (getEmptyKey VoidPtrInfo) = false
  ∧ isEqual VoidPtrInfo K (getTombstoneKey VoidPtrInfo) = false
  ∧ isEqual VoidPtrInfo (getEmptyKey VoidPtrInfo) K = false
  ∧ isEqual VoidPtrInfo (getTombstoneKey VoidPtrInfo) K = false.
Proof.
  intros [H1 H2]. unfold isEqual, getEmptyKey, getTombstoneKey. simpl.
  assert (llvm.getEmptyKey VoidPtrInfo ≠ DefaultCacheKey.Key K) as H3 by done.
  assert (llvm.getTombstoneKey VoidPtrInfo ≠ DefaultCacheKey.Key K) as H4 by done.
  apply N.eqb_neq in H1, H2, H3, H4. rewrite H1, H2, H3, H4, !N.eqb_refl. simpl.
  rewrite !orb_true_r. by destruct (_ =? _), (_ =? _).
Qed.

(** With the empty or the tombstone key on the left, the comparison is one
    of pointers: their [nullptr] callbacks are never dereferenced. *)
Lemma isEqual_getEmptyKey (K : DefaultCacheKey.t) :
  isEqual VoidPtrInfo (getEmptyKey VoidPtrInfo) K
  = (llvm.getEmptyKey VoidPtrInfo =? DefaultCacheKey.Key K)
  ∧ isEqual VoidPtrInfo (getTombstoneKey VoidPtrInfo) K
    = (llvm.getTombstoneKey VoidPtrInfo =? DefaultCacheKey.Key K).
Proof.
  unfold isEqual, getEmptyKey, getTombstoneKey. simpl. split.
  - destruct (_ =? DefaultCacheKey.Key K); [done|]. by destruct (_ || _).
  - destruct (_ =? DefaultCacheKey.Key K); [done|]. by destruct (_ || _).
Qed.

Lemma isEqual_sym CBs (K K' : DefaultCacheKey.t) :
  Contract CBs → good VoidPtrInfo CBs K → good VoidPtrInfo CBs K' →
  isEqual VoidPtrInfo K K' = true → isEqual VoidPtrInfo K' K = true.
Proof.
  intros HC HK HK'. rewrite (isEqual_good CBs K K'), (isEqual_good CBs K' K);
    [|done|apply HK|done|apply HK'].
  rewrite !orb_true_iff, !N.eqb_eq. intros [->|H]; [by left|right].
  by apply (equal_sym _ HC).
Qed.

Lemma isEqual_trans CBs (K1 K2 K3 : DefaultCacheKey.t) :
  Contract CBs → good VoidPtrInfo CBs K1 → good VoidPtrInfo CBs K2 → good VoidPtrInfo CBs K3 →
  isEqual VoidPtrInfo K1 K2 = true → isEqual VoidPtrInfo K2 K3 = true →
  isEqual VoidPtrInfo K1 K3 = true.
Proof.
  intros HC H1 H2 H3.
  rewrite (isEqual_good CBs K1 K2), (isEqual_good CBs K2 K3), (isEqual_good CBs K1 K3);
    [|done|apply H3|done|apply H3|done|apply H2].
  rewrite !orb_true_iff, !N.eqb_eq. intros [->|E12] [E23|E23]; auto.
  - rewrite <- E23. auto.
  - right. eapply (equal_trans _ HC); eauto.
Qed.

(** Equal keys hash equal: the requirement of [DenseMap] on its key info. *)
Lemma isEqual_getHashValue CBs (K K' : DefaultCacheKey.t) :
  Contract CBs → good VoidPtrInfo CBs K → good VoidPtrInfo CBs K' →
  isEqual VoidPtrInfo K K' = true →
  getHashValue UIntPtrInfo K = getHashValue UIntPtrInfo K'.
Proof.
  intros HC HK HK'. rewrite (isEqual_good CBs K K'); [|done|apply HK'].
  unfold getHashValue. destruct HK as [-> _], HK' as [-> _].
  rewrite orb_true_iff, N.eqb_eq. intros [->|E]; [done|].
  by rewrite (hash_equal _ HC _ _ E).
Qed.

Lemma BucketMatches_isEqual CBs (K : DefaultCacheKey.t) B :
  Contract CBs → good VoidPtrInfo CBs K → good VoidPtrInfo CBs B.1 →
  llvm.BucketMatches KeyInfo K B = isEqual VoidPtrInfo K B.1.
Proof.
  intros HC HK HB. unfold llvm.BucketMatches. simpl.
  destruct (isEqual VoidPtrInfo K B.1) eqn:E; [|by rewrite andb_false_r].
  rewrite (isEqual_getHashValue CBs K B.1), N.eqb_refl; done.
Qed.

Lemma BucketMatches_same (K : DefaultCacheKey.t) Value :
  llvm.BucketMatches KeyInfo K (K, Value) = true.
Proof.
  unfold llvm.BucketMatches. simpl. by rewrite N.eqb_refl, isEqual_refl.
Qed.

Lemma find_absent DCache Key :
  absent VoidPtrInfo Key DCache →
  find (CKey DCache Key) (DefaultCache.Entries DCache) = None.
Proof.
  intros H. apply list_find_None. eapply Forall_impl; [exact H|].
  intros B HB. simpl in HB. unfold llvm.BucketMatches. simpl. rewrite HB.
  rewrite andb_false_r. exact id.
Qed.

Lemma find_Some (K : DefaultCacheKey.t) Entries Pos B :
  find K Entries = Some (Pos, B) →
  Entries !! Pos = Some B ∧ llvm.BucketMatches KeyInfo K B = true.
Proof.
  intros H. apply list_find_Some in H as (H1 & H2 & _). split; [done|].
  by apply Is_true_true.
Qed.

Lemma find_None (K : DefaultCacheKey.t) Entries :
  find K Entries = None ↔ Forall (λ B, llvm.BucketMatches KeyInfo K B = false) Entries.
Proof.
  unfold llvm.find. rewrite list_find_None. apply Forall_iff.
  intros B. apply Is_true_false.
Qed.

(** The keys of clients are legal keys of the [DenseMap], and only they. *)
Lemma legal_CKey DCache Key :
  valid_key VoidPtrInfo Key → llvm.legal KeyInfo (CKey DCache Key) = true.
Proof.
  intros HK. unfold llvm.legal. simpl.
  destruct (isEqual_sentinel (CKey DCache Key) HK) as (-> & -> & _). done.
Qed.

Lemma legal_valid_key DCache Key :
  llvm.legal KeyInfo (CKey DCache Key) = true → valid_key VoidPtrInfo Key.
Proof.
  unfold llvm.legal. simpl. rewrite andb_true_iff, !negb_true_iff.
  intros [H1 H2]. split; intros ->.
  - by rewrite (isEqual_same_Key (CKey DCache _) (getEmptyKey VoidPtrInfo)) in H1.
  - by rewrite (isEqual_same_Key (CKey DCache _) (getTombstoneKey VoidPtrInfo)) in H2.
Qed.

(** ** Each operation on a live cache, in closed form *)

Lemma withEntries_same DCache : withEntries DCache (DefaultCache.Entries DCache) = DCache.
Proof. by destruct DCache. Qed.

Lemma setAndRetain_live DCache Log Key Value Cost :
  valid_key VoidPtrInfo Key →
  setAndRetain Key Value Cost (live DCache Log) =
  match find (CKey DCache Key) (DefaultCache.Entries DCache) with
  | Some (Pos, B) =>
      Some (tt, live (withEntries DCache
                        (let '(Pos', Entries') :=
                           llvm.subscript KeyInfo nullptr (CKey DCache Key)
                             (llvm.erase Pos (DefaultCache.Entries DCache)) in
                         llvm.assign Pos' Value Entries'))
                     (Log ++ destroyed B))
  | None =>
      Some (tt, live (withEntries DCache
                        (let '(Pos', Entries') :=
                           llvm.subscript KeyInfo nullptr (CKey DCache Key)
                             (DefaultCache.Entries DCache) in
                         llvm.assign Pos' Value Entries'))
                     Log)
  end.
Proof.
  intros HK. apply (legal_CKey DCache) in HK. unfold CKey in *.
  run_M. rewrite HK. unfold destroyed.
  destruct (llvm.find _ _ _) as [[Pos B]|]; simpl.
  - by rewrite <- app_assoc.
  - done.
Qed.

(** With one of the reserved pointers as the key, the behaviour is undefined. *)
Lemma setAndRetain_undefined DCache Log Key Value Cost :
  ¬ valid_key VoidPtrInfo Key →
  setAndRetain Key Value Cost (live DCache Log) = None.
Proof.
  intros HK. run_M.
  destruct (llvm.legal _ _) eqn:HL; [|done].
  by apply (legal_valid_key DCache) in HL.
Qed.

Lemma getAndRetain_live DCache Log Key Value_out :
  valid_key VoidPtrInfo Key →
  getAndRetain Key Value_out (live DCache Log) =
  Some (match find (CKey DCache Key) (DefaultCache.Entries DCache) with
        | Some (_, B) => (true, B.2)
        | None => (false, Value_out)
        end, live DCache Log).
Proof.
  intros HK. apply (legal_CKey DCache) in HK. unfold CKey in *.
  run_M. rewrite HK. destruct DCache as [m cbs E]; simpl.
  by destruct (llvm.find _ _ _) as [[Pos B]|].
Qed.

Lemma remove_live DCache Log Key :
  valid_key VoidPtrInfo Key →
  remove Key (live DCache Log) =
  match find (CKey DCache Key) (DefaultCache.Entries DCache) with
  | Some (Pos, B) =>
      Some (true, live (withEntries DCache (llvm.erase Pos (DefaultCache.Entries DCache)))
                       (Log ++ destroyed B))
  | None => Some (false, live DCache Log)
  end.
Proof.
  intros HK. apply (legal_CKey DCache) in HK. unfold CKey in *.
  run_M. rewrite HK. unfold destroyed. destruct DCache as [m cbs E]; simpl.
  destruct (llvm.find _ _ _) as [[Pos B]|]; simpl; [|done].
  by rewrite <- app_assoc.
Qed.

Lemma for_each_destroy Range w :
  for_each Range (λ Entry,
      invoke (keyDestroyCB (DefaultCacheKey.Key Entry.1));;
      invoke (valueDestroyCB Entry.2)) w
  = Some (tt, {| Impl := Impl w; Calls := Calls w ++ flat_map destroyed Range |}).
Proof.
  revert w. induction Range as [|B Rest IH]; intros w; simpl.
  - rewrite app_nil_r. by destruct w.
  - unfold mbind, M_bind at 1. unfold mbind, M_bind at 1. unfold invoke at 1 2. simpl.
    rewrite IH. simpl. by rewrite <- !app_assoc.
Qed.

Lemma removeAll_live DCache Log :
  CacheImpl.removeAll (live DCache Log) =
  Some (tt, live (withEntries DCache [])
                 (Log ++ flat_map destroyed (DefaultCache.Entries DCache))).
Proof.
  unfold CacheImpl.removeAll, ScopedLock, acquire, release, setEntries, modify, deref, live.
  unfold mbind, M_bind, mret, M_ret. simpl.
  rewrite for_each_destroy. simpl. by destruct DCache.
Qed.

(** ** The invariant *)

Lemma Forall_sublist {A} (P : A → Prop) (l l' : list A) :
  sublist l l' → Forall P l' → Forall P l.
Proof.
  induction 1 as [|x l1 l2 Hs IH|x l1 l2 Hs IH]; [done|..].
  - intros HF. inversion HF; subst. constructor; auto.
  - intros HF. inversion HF; subst. auto.
Qed.

Lemma distinct_keys_sublist Entries Entries' :
  sublist Entries Entries' →
  distinct_keys VoidPtrInfo Entries' → distinct_keys VoidPtrInfo Entries.
Proof.
  induction 1 as [|B l1 l2 Hs IH|B l1 l2 Hs IH]; simpl; [done|..].
  - intros [HF HD]. split; [|by apply IH]. by eapply Forall_sublist.
  - intros [_ HD]. by apply IH.
Qed.

Lemma distinct_keys_middle Entries1 B Entries2 :
  distinct_keys VoidPtrInfo (Entries1 ++ B :: Entries2) →
  Forall (λ B', isEqual VoidPtrInfo B'.1 B.1 = false) Entries1
  ∧ Forall (λ B', isEqual VoidPtrInfo B.1 B'.1 = false) Entries2.
Proof.
  induction Entries1 as [|A l IH]; simpl.
  - intros [HF _]. by split.
  - intros [HF HD]. destruct (IH HD) as [H1 H2]. split; [|done].
    constructor; [|done]. apply Forall_app in HF as [_ HF]. by inversion HF.
Qed.

(** Once the bucket [find] returned is erased, no bucket matches the key. *)
Lemma find_erase CBs (K : DefaultCacheKey.t) Entries Pos B :
  Contract CBs → good VoidPtrInfo CBs K →
  Forall (λ B, good VoidPtrInfo CBs B.1) Entries →
  distinct_keys VoidPtrInfo Entries →
  find K Entries = Some (Pos, B) →
  find K (llvm.erase Pos Entries) = None.
Proof.
  intros HC HK HG HD HF. apply find_Some in HF as [HL HM].
  unfold llvm.erase. rewrite delete_take_drop.
  rewrite <- (take_drop_middle _ _ _ HL) in HD, HG.
  apply distinct_keys_middle in HD as [HD1 HD2].
  apply Forall_app in HG as [HG1 HG2]. inversion HG2 as [|? ? HB HG3]; subst.
  rewrite (BucketMatches_isEqual CBs) in HM by done.
  apply find_None, Forall_app. split.
  - eapply Forall_impl; [apply Forall_and; split; [exact HG1|exact HD1]|].
    intros B' [HB' HE]. rewrite (BucketMatches_isEqual CBs) by done.
    destruct (isEqual VoidPtrInfo K B'.1) eqn:E; [|done].
    rewrite <- HE. symmetry.
    apply (isEqual_trans CBs B'.1 K B.1); try done.
    by apply (isEqual_sym CBs).
  - eapply Forall_impl; [apply Forall_and; split; [exact HG3|exact HD2]|].
    intros B' [HB' HE]. rewrite (BucketMatches_isEqual CBs) by done.
    destruct (isEqual VoidPtrInfo K B'.1) eqn:E; [|done].
    rewrite <- HE. symmetry.
    apply (isEqual_trans CBs B.1 K B'.1); try done.
    by apply (isEqual_sym CBs).
Qed.

Lemma subscript_assign_fresh (K : DefaultCacheKey.t) Value Entries :
  find K Entries = None →
  (let '(Pos, Entries') := llvm.subscript KeyInfo nullptr K Entries in
   llvm.assign Pos Value Entries') = (K, Value) :: Entries.
Proof. intros H. unfold llvm.subscript. by rewrite H. Qed.

Lemma evicted_sublist (K : DefaultCacheKey.t) Entries :
  sublist (evicted VoidPtrInfo UIntPtrInfo K Entries) Entries.
Proof.
  unfold evicted. destruct (llvm.find _ _ _) as [[Pos B]|]; [|done].
  apply sublist_delete.
Qed.

Lemma find_evicted DCache Key :
  wf VoidPtrInfo DCache → valid_key VoidPtrInfo Key →
  find (CKey DCache Key)
       (evicted VoidPtrInfo UIntPtrInfo (CKey DCache Key) (DefaultCache.Entries DCache)) = None.
Proof.
  intros [HC HS HD] HK. unfold evicted.
  destruct (llvm.find _ _ (DefaultCache.Entries DCache)) as [[Pos B]|] eqn:HF; [|done].
  eapply find_erase; eauto. by apply good_CKey.
Qed.

(** On a well-formed cache [setAndRetain] evicts, then adds a new bucket. *)
Lemma setAndRetain_wf DCache Log Key Value Cost :
  wf VoidPtrInfo DCache → valid_key VoidPtrInfo Key →
  setAndRetain Key Value Cost (live DCache Log) =
  Some (tt, live (withEntries DCache
                    ((CKey DCache Key, Value)
                     :: evicted VoidPtrInfo UIntPtrInfo (CKey DCache Key)
                          (DefaultCache.Entries DCache)))
                 (Log ++ evicted_calls VoidPtrInfo UIntPtrInfo (CKey DCache Key)
                           (DefaultCache.Entries DCache))).
Proof.
  intros HW HK. rewrite setAndRetain_live by done.
  pose proof (find_evicted DCache Key HW HK) as HN.
  unfold evicted, evicted_calls in *.
  destruct (llvm.find _ _ (DefaultCache.Entries DCache)) as [[Pos B]|].
  - by rewrite (subscript_assign_fresh _ Value _ HN).
  - rewrite (subscript_assign_fresh _ Value _ HN). by rewrite app_nil_r.
Qed.

Lemma wf_sublist DCache Entries :
  sublist Entries (DefaultCache.Entries DCache) →
  wf VoidPtrInfo DCache → wf VoidPtrInfo (withEntries DCache Entries).
Proof.
  intros HS [HC HG HD]. split; simpl; [done|..].
  - unfold stored_keys_ok. simpl. by eapply Forall_sublist.
  - by eapply distinct_keys_sublist.
Qed.

Lemma wf_setAndRetain DCache Key Value :
  wf VoidPtrInfo DCache → valid_key VoidPtrInfo Key →
  wf VoidPtrInfo
     (withEntries DCache
        ((CKey DCache Key, Value)
         :: evicted VoidPtrInfo UIntPtrInfo (CKey DCache Key) (DefaultCache.Entries DCache))).
Proof.
  intros HW HK. pose proof (find_evicted DCache Key HW HK) as HN.
  pose proof (wf_sublist DCache _ (evicted_sublist (CKey DCache Key) _) HW) as [HC HG HD].
  unfold stored_keys_ok in HG. simpl in *. split; simpl; [done|..].
  - unfold stored_keys_ok. simpl. constructor; [by apply (good_CKey DCache)|done].
  - split; [|done]. apply find_None in HN.
    eapply Forall_impl; [apply Forall_and; split; [exact HG|exact HN]|].
    intros B [HB HM]. simpl in HB, HM.
    by rewrite (BucketMatches_isEqual (DefaultCache.CBs DCache)) in HM.
Qed.

(** Every operation of a client keeps a live, well-formed cache live and
    well-formed, with the same callbacks. *)
Lemma exec_wf DCache Log o :
  wf VoidPtrInfo DCache → valid_op VoidPtrInfo o →
  ∃ DCache' Log',
    exec VoidPtrInfo UIntPtrInfo o (live DCache Log) = Some (tt, live DCache' Log')
    ∧ wf VoidPtrInfo DCache'
    ∧ DefaultCache.CBs DCache' = DefaultCache.CBs DCache.
Proof.
  intros HW HV. destruct o as [Key Value Cost|Key Value_out|Value|Key|]; simpl.
  - rewrite setAndRetain_wf by done. do 2 eexists. split; [done|].
    split; [by apply wf_setAndRetain|done].
  - unfold mbind, M_bind. rewrite getAndRetain_live by done. by exists DCache, Log.
  - by exists DCache, Log.
  - unfold mbind, M_bind. rewrite remove_live by done.
    destruct (llvm.find _ _ _) as [[Pos B]|]; [|by exists DCache, Log].
    do 2 eexists. split; [done|]. split; [|done].
    apply wf_sublist; [apply sublist_delete|done].
  - rewrite removeAll_live. do 2 eexists. split; [done|]. split; [|done].
    apply wf_sublist; [apply sublist_nil_l|done].
Qed.

(** Every operation returns with the mutex as it found it. *)
Lemma exec_Mux DCache Log o DCache' Log' :
  valid_op VoidPtrInfo o →
  exec VoidPtrInfo UIntPtrInfo o (live DCache Log) = Some (tt, live DCache' Log') →
  DefaultCache.Mux DCache' = DefaultCache.Mux DCache.
Proof.
  intros HV. destruct o as [Key Value Cost|Key Value_out|Value|Key|]; simpl.
  - rewrite setAndRetain_live by done.
    destruct (llvm.find _ _ _) as [[Pos B]|]; by intros [= <- _].
  - unfold mbind, M_bind. rewrite getAndRetain_live by done. by intros [= <- _].
  - by intros [= <- _].
  - unfold mbind, M_bind. rewrite remove_live by done.
    destruct (llvm.find _ _ _) as [[Pos B]|]; by intros [= <- _].
  - rewrite removeAll_live. by intros [= <- _].
Qed.

Lemma run_wf ops : ∀ DCache Log,
  wf VoidPtrInfo DCache → Forall (valid_op VoidPtrInfo) ops →
  ∃ DCache' Log',
    run VoidPtrInfo UIntPtrInfo ops (live DCache Log) = Some (tt, live DCache' Log')
    ∧ wf VoidPtrInfo DCache'
    ∧ DefaultCache.CBs DCache' = DefaultCache.CBs DCache.
Proof.
  induction ops as [|o ops IH]; intros DCache Log HW HV; simpl.
  - by exists DCache, Log.
  - inversion HV as [|? ? Ho Hops]; subst.
    destruct (exec_wf DCache Log o HW Ho) as (D1 & L1 & HE & HW1 & HC1).
    destruct (IH D1 L1 HW1 Hops) as (D2 & L2 & HR & HW2 & HC2).
    exists D2, L2. unfold mbind, M_bind. rewrite HE. split; [done|].
    split; [done|congruence].
Qed.

Lemma setAndRetain_absent DCache Log Key Value Cost :
  valid_key VoidPtrInfo Key → absent VoidPtrInfo Key DCache →
  setAndRetain Key Value Cost (live DCache Log) =
  Some (tt, live (withEntries DCache ((CKey DCache Key, Value) :: DefaultCache.Entries DCache))
                 Log).
Proof.
  intros HK HA. apply find_absent in HA. rewrite setAndRetain_live, HA by done.
  by rewrite (subscript_assign_fresh _ Value _ HA).
Qed.

(** ** Equal keys and the invariant *)

Lemma class_related CBs Key1 Key2 B :
  Contract CBs → keyIsEqualCB CBs Key1 Key2 = true →
  class CBs Key1 Key2 B = true →
  DefaultCacheKey.Key B.1 = Key1 ∨ keyIsEqualCB CBs Key1 (DefaultCacheKey.Key B.1) = true.
Proof.
  intros HC H12. unfold class, in_class.
  rewrite !orb_true_iff, !N.eqb_eq. intros [[H|H]|[H|H]]; auto.
  - right. by rewrite H.
  - right. eapply (equal_trans _ HC); eauto.
Qed.

Lemma class_isEqual CBs Key1 Key2 B B' :
  Contract CBs → good VoidPtrInfo CBs B.1 → good VoidPtrInfo CBs B'.1 →
  keyIsEqualCB CBs Key1 Key2 = true →
  class CBs Key1 Key2 B = true → class CBs Key1 Key2 B' = true →
  isEqual VoidPtrInfo B.1 B'.1 = true.
Proof.
  intros HC HB HB' H12 H H'.
  apply (class_related CBs) in H, H'; try done.
  rewrite (isEqual_good CBs) by (done || apply HB').
  rewrite orb_true_iff, N.eqb_eq.
  destruct H as [H|H], H' as [H'|H'].
  - left. congruence.
  - right. by rewrite H.
  - right. rewrite H'. by apply (equal_sym _ HC).
  - right. eapply (equal_trans _ HC); [|exact H']. by apply (equal_sym _ HC).
Qed.

Lemma filter_none {A} (P : A → Prop) `{∀ x, Decision (P x)} (l : list A) :
  Forall (λ x, ¬ P x) l → filter P l = [].
Proof.
  induction 1 as [|x l Hx Hl IH]; [done|].
  by rewrite filter_cons, decide_False.
Qed.

(** In a well-formed cache a class of equal keys has at most one bucket. *)
Lemma wf_class_unique DCache Key1 Key2 :
  wf VoidPtrInfo DCache →
  keyIsEqualCB (DefaultCache.CBs DCache) Key1 Key2 = true →
  (length (filter (λ B, class (DefaultCache.CBs DCache) Key1 Key2 B)
                  (DefaultCache.Entries DCache)) ≤ 1)%nat.
Proof.
  intros [HC HG HD] H12. unfold stored_keys_ok in HG.
  induction (DefaultCache.Entries DCache) as [|B E IH]; simpl; [lia|].
  inversion HG as [|? ? HB HG']; subst. destruct HD as [HF HD].
  rewrite filter_cons. case_decide as HcB; [|by apply IH].
  assert (filter (λ B, class (DefaultCache.CBs DCache) Key1 Key2 B) E = []) as ->; [|simpl; lia].
  apply filter_none.
  eapply Forall_impl; [apply Forall_and; split; [exact HG'|exact HF]|].
  intros B' [HB' HE] HcB'. simpl in *.
  apply Is_true_true in HcB, HcB'.
  by rewrite (class_isEqual _ _ _ _ _ HC HB HB' H12 HcB HcB') in HE.
Qed.

(** A key equal to the one just stored finds the new bucket. *)
Lemma find_stored DCache Key Key' Value Entries :
  Contract (DefaultCache.CBs DCache) →
  valid_key VoidPtrInfo Key → valid_key VoidPtrInfo Key' →
  keyIsEqualCB (DefaultCache.CBs DCache) Key Key' = true →
  find (CKey DCache Key') ((CKey DCache Key, Value) :: Entries)
  = Some (0%nat, (CKey DCache Key, Value)).
Proof.
  intros HC HK HK' HE. unfold llvm.find. simpl. rewrite decide_True; [done|].
  apply Is_true_true.
  rewrite (BucketMatches_isEqual (DefaultCache.CBs DCache)); try done.
  rewrite (isEqual_good (DefaultCache.CBs DCache)); try done. simpl.
  by rewrite (equal_sym _ HC _ _ HE), orb_true_r.
Qed.

(** The two steps of [setAndRetain] on a live cache. *)
Lemma setAndRetain_evict_live DCache Log (K : DefaultCacheKey.t) :
  llvm.legal KeyInfo K = true →
  (acquire;; CacheImpl.setAndRetain_evict VoidPtrInfo UIntPtrInfo K) (live DCache Log)
  = Some (tt, live (DefaultCache.mk (S (DefaultCache.Mux DCache)) (DefaultCache.CBs DCache)
                      (evicted VoidPtrInfo UIntPtrInfo K (DefaultCache.Entries DCache)))
                   (Log ++ evicted_calls VoidPtrInfo UIntPtrInfo K (DefaultCache.Entries DCache))).
Proof.
  intros HL. run_M. rewrite HL. unfold evicted, evicted_calls, destroyed.
  destruct (llvm.find _ _ _) as [[Pos B]|]; simpl.
  - by rewrite <- app_assoc.
  - by rewrite app_nil_r.
Qed.

Lemma setAndRetain_store_live DCache Log (K : DefaultCacheKey.t) Value :
  llvm.legal KeyInfo K = true →
  find K (DefaultCache.Entries DCache) = None →
  (CacheImpl.setAndRetain_store VoidPtrInfo UIntPtrInfo K Value;; release) (live DCache Log)
  = Some (tt, live (DefaultCache.mk (pred (DefaultCache.Mux DCache)) (DefaultCache.CBs DCache)
                      ((K, Value) :: DefaultCache.Entries DCache))
                   Log).
Proof.
  intros HL HN. run_M. rewrite HL. simpl.
  by rewrite (subscript_assign_fresh _ Value _ HN).
Qed.

(** ** The properties of the design document *)

(** C1, uniqueness: after any sequence of operations of a client on a new
    cache, with callbacks that keep their contract and keys a client may pass,
    and for all keys [Key1], [Key2] that [keyIsEqualCB] declares equal, at
    most one bucket lies in their class; and two [setAndRetain] in a row with
    such keys leave one bucket in that class, the one of the second call. *)
Theorem uniqueness Name CBs ops :
  Contract CBs → Forall (valid_op VoidPtrInfo) ops →
  ∃ DCache Log,
    run VoidPtrInfo UIntPtrInfo ops {| Impl := CacheImpl.create Name CBs; Calls := [] |}
    = Some (tt, live DCache Log)
    ∧ ∀ Key1 Key2, keyIsEqualCB CBs Key1 Key2 = true →
        (length (filter (λ B, class CBs Key1 Key2 B) (DefaultCache.Entries DCache)) ≤ 1)%nat
        ∧ ∀ Value1 Value2 Cost1 Cost2,
            valid_key VoidPtrInfo Key1 → valid_key VoidPtrInfo Key2 →
            ∃ DCache' Log',
              run VoidPtrInfo UIntPtrInfo [OpSet Key1 Value1 Cost1; OpSet Key2 Value2 Cost2]
                  (live DCache Log)
              = Some (tt, live DCache' Log')
              ∧ filter (λ B, class CBs Key1 Key2 B) (DefaultCache.Entries DCache')
                = [(DefaultCacheKey.mk Key2 (Some CBs), Value2)].
Proof.
  intros HC HV.
  assert (wf VoidPtrInfo (DefaultCache.mk 0 CBs [])) as HW0
    by (split; simpl; [done|constructor|done]).
  destruct (run_wf ops _ [] HW0 HV) as (D & L & HR & HW & HCB).
  exists D, L. split; [exact HR|]. simpl in HCB. subst CBs.
  intros Key1 Key2 H12. split; [by apply wf_class_unique|].
  intros Value1 Value2 Cost1 Cost2 HK1 HK2. simpl.
  unfold mbind, M_bind at 1. rewrite setAndRetain_wf by done.
  pose proof (wf_setAndRetain D Key1 Value1 HW HK1) as HW1.
  unfold mbind, M_bind at 1. rewrite setAndRetain_wf by done.
  pose proof (wf_setAndRetain _ Key2 Value2 HW1 HK2) as HW2.
  do 2 eexists. split; [done|].
  pose proof (wf_class_unique _ Key1 Key2 HW2 H12) as HU.
  unfold CKey in HU |- *. simpl in HU |- *.
  rewrite filter_cons in HU |- *. rewrite decide_True in HU |- *.
  - simpl in HU. destruct (filter _ _); [done|simpl in HU; lia].
  - apply Is_true_true. unfold class, in_class. simpl.
    by rewrite N.eqb_refl, orb_true_r.
  - apply Is_true_true. unfold class, in_class. simpl.
    by rewrite N.eqb_refl, orb_true_r.
Qed.

(** C2, replace destroys the old pair: on a well-formed cache, after
    [setAndRetain Key Value1] the pair is stored; a following
    [setAndRetain Key' Value2] with [Key] and [Key'] equal invokes
    [keyDestroyCB Key] and [valueDestroyCB Value1], once each and in this
    order, and nothing else.  Both calls are made in the first step of the
    body, on whose completion no bucket matches [Key']; the second step
    stores the new pair and invokes nothing.  The new pair is the one a
    lookup finds afterwards.  The callbacks get the pointers of the old
    pair: [keyDestroyCB] is invoked on [Key'] exactly when [Key'] is the
    pointer [Key], and [valueDestroyCB] on [Value2] exactly when [Value2] is
    the pointer [Value1]. *)
Theorem replace_destroys_old DCache Log Key Value1 Cost1 Key' Value2 Cost2 Value_out :
  wf VoidPtrInfo DCache →
  valid_key VoidPtrInfo Key → valid_key VoidPtrInfo Key' →
  keyIsEqualCB (DefaultCache.CBs DCache) Key Key' = true →
  let Old := [keyDestroyCB Key; valueDestroyCB Value1] in
  ∃ DCache1 Log1 DCacheMid DCache2 Rest,
    setAndRetain Key Value1 Cost1 (live DCache Log) = Some (tt, live DCache1 Log1)
    ∧ DefaultCache.Entries DCache1 = (CKey DCache Key, Value1) :: Rest
    ∧ setAndRetain Key' Value2 Cost2 (live DCache1 Log1)
      = Some (tt, live DCache2 (Log1 ++ Old))
    ∧ DefaultCache.Entries DCache2 = (CKey DCache Key', Value2) :: Rest
    ∧ (acquire;; CacheImpl.setAndRetain_evict VoidPtrInfo UIntPtrInfo (CKey DCache Key'))
        (live DCache1 Log1)
      = Some (tt, live DCacheMid (Log1 ++ Old))
    ∧ DefaultCache.Entries DCacheMid = Rest
    ∧ find (CKey DCache Key') Rest = None
    ∧ (CacheImpl.setAndRetain_store VoidPtrInfo UIntPtrInfo (CKey DCache Key') Value2;; release)
        (live DCacheMid (Log1 ++ Old))
      = Some (tt, live DCache2 (Log1 ++ Old))
    ∧ getAndRetain Key' Value_out (live DCache2 (Log1 ++ Old))
      = Some ((true, Value2), live DCache2 (Log1 ++ Old))
    ∧ (keyDestroyCB Key' ∈ Old ↔ Key' = Key)
    ∧ (valueDestroyCB Value2 ∈ Old ↔ Value2 = Value1).
Proof.
  intros HW HK HK' HE Old.
  pose proof (wf_setAndRetain DCache Key Value1 HW HK) as HW1.
  set (Rest := evicted VoidPtrInfo UIntPtrInfo (CKey DCache Key) (DefaultCache.Entries DCache)) in *.
  set (D1 := withEntries DCache ((CKey DCache Key, Value1) :: Rest)) in *.
  assert (find (CKey DCache Key') (DefaultCache.Entries D1) = Some (0%nat, (CKey DCache Key, Value1)))
    as HF by (apply find_stored; (done || apply HW)).
  assert (find (CKey DCache Key') Rest = None) as HN.
  { change Rest with (llvm.erase 0 (DefaultCache.Entries D1)).
    eapply (find_erase (DefaultCache.CBs DCache)); [apply HW|by apply (good_CKey DCache)
      |apply HW1|apply HW1|exact HF]. }
  eexists D1, _, _, _, Rest.
  split; [by apply setAndRetain_wf|]. split; [done|].
  split.
  { rewrite setAndRetain_wf by done. change (CKey D1 Key') with (CKey DCache Key').
    unfold evicted, evicted_calls. rewrite HF. reflexivity. }
  split; [done|]. split.
  { rewrite setAndRetain_evict_live by (by apply legal_CKey).
    unfold evicted, evicted_calls. rewrite HF. reflexivity. }
  split; [done|]. split; [exact HN|]. split.
  { rewrite setAndRetain_store_live; [|by apply legal_CKey|exact HN]. simpl.
    unfold withEntries, llvm.erase. simpl. reflexivity. }
  split.
  { rewrite getAndRetain_live by done. simpl. unfold llvm.find. simpl.
    by rewrite decide_True by (apply Is_true_true, BucketMatches_same). }
  unfold Old. rewrite !elem_of_cons, !elem_of_nil. split; split.
  - intros [Hin|[Hin|[]]]; congruence.
  - intros ->. by left.
  - intros [Hin|[Hin|[]]]; congruence.
  - intros ->. right. by left.
Qed.

(** C10, fresh insert: when no key equivalent to [Key] is present,
    [setAndRetain] invokes no destroy callback (the log is unchanged) and adds
    exactly the bucket of [(Key, Value)]; all the buckets that were there are
    still there, unchanged. *)
Theorem fresh_insert_frame DCache Log Key Value Cost :
  valid_key VoidPtrInfo Key → absent VoidPtrInfo Key DCache →
  setAndRetain Key Value Cost (live DCache Log) =
  Some (tt, live (withEntries DCache ((CKey DCache Key, Value) :: DefaultCache.Entries DCache))
                 Log).
Proof. apply setAndRetain_absent. Qed.

(** C5, absence is a value: when no key equivalent to [Key] is present,
    [getAndRetain] returns [false] and leaves [*Value_out] alone, [remove]
    returns [false]; both are defined, and neither changes the cache nor
    invokes a callback.  In particular [remove] on a cache just created
    returns [false] and invokes nothing. *)
Theorem absence_is_a_value DCache Log Key Value_out :
  valid_key VoidPtrInfo Key → absent VoidPtrInfo Key DCache →
  getAndRetain Key Value_out (live DCache Log) = Some ((false, Value_out), live DCache Log)
  ∧ remove Key (live DCache Log) = Some (false, live DCache Log)
  ∧ ∀ Name CBs,
      remove Key {| Impl := CacheImpl.create Name CBs; Calls := Log |}
      = Some (false, {| Impl := CacheImpl.create Name CBs; Calls := Log |}).
Proof.
  intros HK HA. apply find_absent in HA.
  rewrite getAndRetain_live, remove_live, HA by done. split; [done|]. split; [done|].
  intros Name CBs. exact (remove_live (DefaultCache.mk 0 CBs []) Log Key HK).
Qed.

(** C3, remove round trip: for a key not present before, after
    [setAndRetain Key Value] the call [remove Key] returns [true] and invokes
    [keyDestroyCB] on [Key] and [valueDestroyCB] on [Value], once each and
    nothing else; [getAndRetain Key] then reports not-found. *)
Theorem remove_round_trip DCache Log Key Value Cost Value_out :
  valid_key VoidPtrInfo Key → absent VoidPtrInfo Key DCache →
  (setAndRetain Key Value Cost;;
   Removed ← remove Key;
   Found ← getAndRetain Key Value_out;
   mret (Removed, Found)) (live DCache Log)
  = Some ((true, (false, Value_out)),
          live DCache (Log ++ [keyDestroyCB Key; valueDestroyCB Value])).
Proof.
  intros HK HA. unfold mbind, M_bind at 1. rewrite setAndRetain_absent by done.
  unfold mbind, M_bind at 1. rewrite remove_live by done. simpl.
  unfold llvm.find. simpl. rewrite decide_True by (apply Is_true_true, BucketMatches_same).
  unfold mbind, M_bind, mret, M_ret. simpl. unfold withEntries. simpl.
  replace (DefaultCache.mk _ _ _) with DCache by (by destruct DCache).
  rewrite getAndRetain_live, (find_absent _ _ HA) by done. done.
Qed.

(** C4, bulk clear: [removeAll] invokes [keyDestroyCB] and [valueDestroyCB]
    once for each bucket that is there at the call, and nothing else; the
    mapping is empty afterwards, and [getAndRetain] reports not-found for
    every key. *)
Theorem removeAll_clears DCache Log :
  ∃ DCache',
    CacheImpl.removeAll (live DCache Log)
    = Some (tt, live DCache' (Log ++ flat_map destroyed (DefaultCache.Entries DCache)))
    ∧ DefaultCache.Entries DCache' = []
    ∧ length (flat_map destroyed (DefaultCache.Entries DCache))
      = (2 * length (DefaultCache.Entries DCache))%nat
    ∧ ∀ Key Value_out Log',
        valid_key VoidPtrInfo Key →
        getAndRetain Key Value_out (live DCache' Log')
        = Some ((false, Value_out), live DCache' Log').
Proof.
  exists (withEntries DCache []). rewrite removeAll_live.
  split; [done|]. split; [done|]. split.
  - induction (DefaultCache.Entries DCache) as [|B E IH]; simpl; [done|]. lia.
  - intros Key Value_out Log' HK. by rewrite getAndRetain_live.
Qed.

(** C6, [releaseValue] is a no-op: it leaves the whole state, the mapping
    and the log of callbacks, as it is, dead or alive; and [getAndRetain]
    changes nothing either, so there is no retain to undo. *)
Theorem releaseValue_noop (w : World) Value :
  CacheImpl.releaseValue Value w = Some (tt, w)
  ∧ ∀ DCache Log Key Value_out,
      valid_key VoidPtrInfo Key →
      ∃ r, getAndRetain Key Value_out (live DCache Log) = Some (r, live DCache Log).
Proof.
  split; [done|]. intros. rewrite getAndRetain_live by done. eauto.
Qed.

(** C7, the cost is inert: two calls of [setAndRetain] that differ in [Cost]
    only yield the same result, state and callback log. *)
Theorem cost_is_inert (w : World) Key Value (Cost1 Cost2 : size_t) :
  setAndRetain Key Value Cost1 w = setAndRetain Key Value Cost2 w.
Proof. reflexivity. Qed.

Lemma removeAll_dead Log : CacheImpl.removeAll {| Impl := None; Calls := Log |} = None.
Proof. done. Qed.

(** C8, [destroy] is [removeAll] followed by the release of the instance:
    it agrees with that composition on every state; on a live cache it
    invokes the callbacks [removeAll] invokes, once per bucket, and leaves
    the handle deleted; every operation on a deleted handle, [destroy]
    included, is undefined. *)
Theorem destroy_is_removeAll_then_release :
  (∀ w, CacheImpl.destroy w = removeAll_then_release w)
  ∧ (∀ DCache Log,
       CacheImpl.removeAll (live DCache Log)
       = Some (tt, live (withEntries DCache [])
                        (Log ++ flat_map destroyed (DefaultCache.Entries DCache)))
       ∧ CacheImpl.destroy (live DCache Log)
         = Some (tt, {| Impl := None;
                        Calls := Log ++ flat_map destroyed (DefaultCache.Entries DCache) |}))
  ∧ (∀ Log Key Value Cost,
       setAndRetain Key Value Cost {| Impl := None; Calls := Log |} = None
       ∧ getAndRetain Key Value {| Impl := None; Calls := Log |} = None
       ∧ remove Key {| Impl := None; Calls := Log |} = None
       ∧ CacheImpl.removeAll {| Impl := None; Calls := Log |} = None
       ∧ CacheImpl.destroy {| Impl := None; Calls := Log |} = None).
Proof.
  split; [|split].
  - intros [[DCache|] Log].
    + change {| Impl := Some DCache; Calls := Log |} with (live DCache Log).
      unfold CacheImpl.destroy, removeAll_then_release, mbind, M_bind.
      by rewrite removeAll_live.
    + done.
  - intros DCache Log. rewrite removeAll_live. split; [done|].
    unfold CacheImpl.destroy, mbind, M_bind. by rewrite removeAll_live.
  - done.
Qed.

(** ** Further properties of the cache *)

Lemma flat_map_destroyed_delete Entries Pos B :
  Entries !! Pos = Some B →
  flat_map destroyed Entries ≡ₚ destroyed B ++ flat_map destroyed (llvm.erase Pos Entries).
Proof.
  intros HL. unfold llvm.erase. rewrite delete_take_drop.
  rewrite <- (take_drop_middle _ _ _ HL) at 1.
  rewrite !flat_map_app.
  change (flat_map destroyed (B :: ?l)) with (destroyed B ++ flat_map destroyed l).
  apply Permutation_app_swap_app.
Qed.

Lemma evicted_calls_evicted (K : DefaultCacheKey.t) Entries :
  evicted_calls VoidPtrInfo UIntPtrInfo K Entries
  ++ flat_map destroyed (evicted VoidPtrInfo UIntPtrInfo K Entries)
  ≡ₚ flat_map destroyed Entries.
Proof.
  unfold evicted, evicted_calls.
  destruct (llvm.find _ _ _) as [[Pos B]|] eqn:HF; [|done].
  apply find_Some in HF as [HL _]. symmetry. by apply flat_map_destroyed_delete.
Qed.

(** What was destroyed and what is stored add up to what was set. *)
Lemma exec_conserves DCache Log o DCache' Log' :
  wf VoidPtrInfo DCache → valid_op VoidPtrInfo o →
  exec VoidPtrInfo UIntPtrInfo o (live DCache Log) = Some (tt, live DCache' Log') →
  Log' ++ flat_map destroyed (DefaultCache.Entries DCache')
  ≡ₚ (Log ++ flat_map destroyed (DefaultCache.Entries DCache)) ++ set_calls [o].
Proof.
  intros HW HV. destruct o as [Key Value Cost|Key Value_out|Value|Key|]; simpl.
  - rewrite setAndRetain_wf by done. intros [= <- <-]. simpl.
    rewrite <- (evicted_calls_evicted (CKey DCache Key) (DefaultCache.Entries DCache)).
    change (?a :: ?b :: flat_map ?f ?l) with ([a; b] ++ flat_map f l).
    rewrite <- !app_assoc. do 2 apply Permutation_app_head.
    apply Permutation_app_comm.
  - unfold mbind, M_bind. rewrite getAndRetain_live by done.
    intros [= <- <-]. by rewrite app_nil_r.
  - intros [= <- <-]. by rewrite app_nil_r.
  - unfold mbind, M_bind. rewrite remove_live by done.
    destruct (llvm.find _ _ _) as [[Pos B]|] eqn:HF.
    + intros [= <- <-]. simpl. rewrite app_nil_r, <- app_assoc.
      apply Permutation_app_head. symmetry.
      apply flat_map_destroyed_delete. by apply find_Some in HF as [HL _].
    + intros [= <- <-]. by rewrite app_nil_r.
  - rewrite removeAll_live. intros [= <- <-]. simpl. by rewrite !app_nil_r.
Qed.

Lemma run_conserves ops : ∀ DCache Log,
  wf VoidPtrInfo DCache → Forall (valid_op VoidPtrInfo) ops →
  ∃ DCache' Log',
    run VoidPtrInfo UIntPtrInfo ops (live DCache Log) = Some (tt, live DCache' Log')
    ∧ Log' ++ flat_map destroyed (DefaultCache.Entries DCache')
      ≡ₚ (Log ++ flat_map destroyed (DefaultCache.Entries DCache)) ++ set_calls ops.
Proof.
  induction ops as [|o ops IH]; intros DCache Log HW HV.
  - exists DCache, Log. split; [done|]. simpl. by rewrite app_nil_r.
  - inversion HV as [|? ? Ho Hops]; subst.
    destruct (exec_wf DCache Log o HW Ho) as (D1 & L1 & HE & HW1 & _).
    destruct (IH D1 L1 HW1 Hops) as (D2 & L2 & HR & HP).
    exists D2, L2. simpl. unfold mbind, M_bind. rewrite HE. split; [done|].
    rewrite HP. rewrite (exec_conserves _ _ _ _ _ HW Ho HE).
    change (set_calls (o :: ops)) with (set_calls [o] ++ set_calls ops).
    simpl. rewrite app_nil_r. by rewrite <- !app_assoc.
Qed.

(** X1, no leak and no double destroy: when a client runs any sequence of
    operations on a new cache and then calls [destroy], the destroy callbacks
    invoked over the whole life of the cache are, up to their order, one
    [keyDestroyCB] and one [valueDestroyCB] for every pair that was handed to
    [setAndRetain]. *)
Theorem every_pair_destroyed_once Name CBs ops :
  Contract CBs → Forall (valid_op VoidPtrInfo) ops →
  ∃ Log,
    (run VoidPtrInfo UIntPtrInfo ops;; CacheImpl.destroy)
      {| Impl := CacheImpl.create Name CBs; Calls := [] |}
    = Some (tt, {| Impl := None; Calls := Log |})
    ∧ Log ≡ₚ set_calls ops.
Proof.
  intros HC HV.
  assert (wf VoidPtrInfo (DefaultCache.mk 0 CBs [])) as HW0
    by (split; simpl; [done|constructor|done]).
  destruct (run_conserves ops _ [] HW0 HV) as (D & L & HR & HP).
  eexists. unfold mbind, M_bind at 1.
  change {| Impl := CacheImpl.create Name CBs; Calls := [] |}
    with (live (DefaultCache.mk 0 CBs []) []).
  rewrite HR. unfold CacheImpl.destroy, mbind, M_bind. rewrite removeAll_live.
  split; [done|]. exact HP.
Qed.

Lemma list_find_delete_other {A} (P : A → Prop) `{∀ x, Decision (P x)} (l : list A) Pos x :
  l !! Pos = Some x → ¬ P x →
  snd <$> list_find P (delete Pos l) = snd <$> list_find P l.
Proof.
  revert Pos. induction l as [|y l IH]; intros [|Pos] HL HP; simpl in *; try done.
  - injection HL as ->. rewrite decide_False by done.
    destruct (list_find P l) as [[i z]|]; done.
  - case_decide; [done|]. specialize (IH Pos HL HP).
    destruct (list_find P (delete Pos l)) as [[i z]|], (list_find P l) as [[j z']|];
      simpl in *; congruence.
Qed.

(** A key that is not equal to [Key1] does not match the bucket [Key1] finds. *)
Lemma other_key_other_bucket DCache Key1 Key2 Pos B :
  wf VoidPtrInfo DCache →
  valid_key VoidPtrInfo Key1 → valid_key VoidPtrInfo Key2 →
  isEqual VoidPtrInfo (CKey DCache Key2) (CKey DCache Key1) = false →
  find (CKey DCache Key1) (DefaultCache.Entries DCache) = Some (Pos, B) →
  llvm.BucketMatches KeyInfo (CKey DCache Key2) B = false.
Proof.
  intros [HC HG HD] HK1 HK2 HNE HF. apply find_Some in HF as [HL HM].
  assert (good VoidPtrInfo (DefaultCache.CBs DCache) B.1) as HB.
  { unfold stored_keys_ok in HG. rewrite Forall_lookup in HG. by apply (HG Pos). }
  rewrite (BucketMatches_isEqual (DefaultCache.CBs DCache)) in HM |- *;
    try done; try by apply good_CKey.
  destruct (isEqual VoidPtrInfo (CKey DCache Key2) B.1) eqn:HE; [|done].
  rewrite <- HNE. symmetry.
  apply (isEqual_trans (DefaultCache.CBs DCache) _ B.1); try done;
    try by apply good_CKey.
  apply (isEqual_sym (DefaultCache.CBs DCache)); done || by apply good_CKey.
Qed.

Lemma find_evicted_other DCache Key1 Key2 :
  wf VoidPtrInfo DCache →
  valid_key VoidPtrInfo Key1 → valid_key VoidPtrInfo Key2 →
  isEqual VoidPtrInfo (CKey DCache Key2) (CKey DCache Key1) = false →
  snd <$> find (CKey DCache Key2)
            (evicted VoidPtrInfo UIntPtrInfo (CKey DCache Key1) (DefaultCache.Entries DCache))
  = snd <$> find (CKey DCache Key2) (DefaultCache.Entries DCache).
Proof.
  intros HW HK1 HK2 HNE. unfold evicted.
  destruct (llvm.find _ (CKey DCache Key1) _) as [[Pos B]|] eqn:HF; [|done].
  pose proof (other_key_other_bucket _ _ _ _ _ HW HK1 HK2 HNE HF) as HB.
  apply find_Some in HF as [HL _].
  apply (list_find_delete_other _ _ Pos B); [done|]. by apply Is_true_false.
Qed.

(** X2, lookup after insert: on a well-formed cache, after
    [setAndRetain Key Value] a [getAndRetain] with [Key] itself, or with any
    key the callback declares equal to it, finds [Value]. *)
Theorem lookup_after_set DCache Log Key Value Cost Key' Value_out :
  wf VoidPtrInfo DCache →
  valid_key VoidPtrInfo Key → valid_key VoidPtrInfo Key' →
  Key' = Key ∨ keyIsEqualCB (DefaultCache.CBs DCache) Key Key' = true →
  ∃ w',
    setAndRetain Key Value Cost (live DCache Log) = Some (tt, w')
    ∧ getAndRetain Key' Value_out w' = Some ((true, Value), w').
Proof.
  intros HW HK HK' HE. eexists. split; [by apply setAndRetain_wf|].
  rewrite getAndRetain_live by done.
  change (CKey (withEntries ?d ?e) ?k) with (CKey d k).
  change (DefaultCache.Entries (withEntries ?d ?e)) with e.
  destruct HE as [->|HE].
  - unfold llvm.find. simpl.
    by rewrite decide_True by (apply Is_true_true, BucketMatches_same).
  - by rewrite find_stored by (done || apply HW).
Qed.

(** X3, an insertion leaves the other keys alone: on a well-formed cache,
    what [getAndRetain Key2] returns is the same before and after
    [setAndRetain Key1 Value], when [Key2] is not equal to [Key1]. *)
Theorem set_keeps_other_keys DCache Log Key1 Value Cost Key2 Value_out :
  wf VoidPtrInfo DCache →
  valid_key VoidPtrInfo Key1 → valid_key VoidPtrInfo Key2 →
  isEqual VoidPtrInfo (CKey DCache Key2) (CKey DCache Key1) = false →
  ∃ w',
    setAndRetain Key1 Value Cost (live DCache Log) = Some (tt, w')
    ∧ fst <$> getAndRetain Key2 Value_out w'
      = fst <$> getAndRetain Key2 Value_out (live DCache Log).
Proof.
  intros HW HK1 HK2 HNE. eexists. split; [by apply setAndRetain_wf|].
  rewrite !getAndRetain_live by done. simpl.
  change (CKey (withEntries _ _) Key2) with (CKey DCache Key2).
  pose proof (find_evicted_other DCache Key1 Key2 HW HK1 HK2 HNE) as HF.
  unfold llvm.find at 1. simpl. rewrite decide_False.
  2:{ apply Is_true_false. unfold llvm.BucketMatches. simpl. fold (CKey DCache Key1).
      rewrite HNE. apply andb_false_r. }
  fold (find (CKey DCache Key2)
          (evicted VoidPtrInfo UIntPtrInfo (CKey DCache Key1) (DefaultCache.Entries DCache))).
  destruct (find _ (evicted _ _ _ _)) as [[i B]|], (find _ (DefaultCache.Entries DCache)) as [[j B']|];
    simpl in *; congruence.
Qed.

(** X4, a removal leaves the other keys alone: on a well-formed cache, what
    [getAndRetain Key2] returns is the same before and after [remove Key1],
    when [Key2] is not equal to [Key1]. *)
Theorem remove_keeps_other_keys DCache Log Key1 Key2 Value_out :
  wf VoidPtrInfo DCache →
  valid_key VoidPtrInfo Key1 → valid_key VoidPtrInfo Key2 →
  isEqual VoidPtrInfo (CKey DCache Key2) (CKey DCache Key1) = false →
  ∃ Removed w',
    remove Key1 (live DCache Log) = Some (Removed, w')
    ∧ fst <$> getAndRetain Key2 Value_out w'
      = fst <$> getAndRetain Key2 Value_out (live DCache Log).
Proof.
  intros HW HK1 HK2 HNE. rewrite remove_live by done.
  pose proof (find_evicted_other DCache Key1 Key2 HW HK1 HK2 HNE) as HF.
  unfold evicted in HF.
  destruct (llvm.find _ (CKey DCache Key1) _) as [[Pos B]|];
    do 2 eexists; (split; [done|]); [|done].
  rewrite !getAndRetain_live by done. simpl.
  change (CKey (withEntries _ _) Key2) with (CKey DCache Key2).
  destruct (find _ (llvm.erase _ _)) as [[i B1]|], (find _ (DefaultCache.Entries DCache)) as [[j B']|];
    simpl in *; congruence.
Qed.

(** X5, a removed key is gone: on a well-formed cache [remove Key] returns
    what [getAndRetain Key] reports, found or not; a second [remove Key]
    returns [false] and a [getAndRetain Key] reports not-found, and neither
    changes the state or invokes a callback. *)
Theorem remove_then_absent DCache Log Key Value_out :
  wf VoidPtrInfo DCache → valid_key VoidPtrInfo Key →
  ∃ Removed w',
    remove Key (live DCache Log) = Some (Removed, w')
    ∧ (fst ∘ fst) <$> getAndRetain Key Value_out (live DCache Log) = Some Removed
    ∧ remove Key w' = Some (false, w')
    ∧ getAndRetain Key Value_out w' = Some ((false, Value_out), w').
Proof.
  intros HW HK. rewrite remove_live, getAndRetain_live by done.
  pose proof (find_evicted DCache Key HW HK) as HN. unfold evicted in HN.
  destruct (llvm.find _ _ (DefaultCache.Entries DCache)) as [[Pos B]|] eqn:HF;
    do 2 eexists; (split; [done|]); (split; [done|]).
  - rewrite remove_live, getAndRetain_live by done. simpl.
    change (CKey (withEntries _ _) Key) with (CKey DCache Key). by rewrite HN.
  - rewrite remove_live, getAndRetain_live by done. by rewrite HF.
Qed.

Lemma find_same (K : DefaultCacheKey.t) Value Entries :
  find K ((K, Value) :: Entries) = Some (0%nat, (K, Value)).
Proof.
  unfold llvm.find. simpl.
  by rewrite decide_True by (apply Is_true_true, BucketMatches_same).
Qed.

Lemma evicted_same (K : DefaultCacheKey.t) Value Entries :
  evicted VoidPtrInfo UIntPtrInfo K ((K, Value) :: Entries) = Entries
  ∧ evicted_calls VoidPtrInfo UIntPtrInfo K ((K, Value) :: Entries)
    = [keyDestroyCB (DefaultCacheKey.Key K); valueDestroyCB Value].
Proof. unfold evicted, evicted_calls. by rewrite find_same. Qed.

(** X6, a key must not be handed in twice: when [setAndRetain] is called
    with the very pointer [Key] that is stored, [keyDestroyCB] is invoked on
    that pointer, and the pointer is stored again as the key of the new
    entry. *)
Theorem same_pointer_is_destroyed_and_stored DCache Log Key Value1 Cost1 Value2 Cost2 :
  wf VoidPtrInfo DCache → valid_key VoidPtrInfo Key →
  ∃ DCache1 Log1 DCache2 Rest,
    setAndRetain Key Value1 Cost1 (live DCache Log) = Some (tt, live DCache1 Log1)
    ∧ setAndRetain Key Value2 Cost2 (live DCache1 Log1)
      = Some (tt, live DCache2 (Log1 ++ [keyDestroyCB Key; valueDestroyCB Value1]))
    ∧ DefaultCache.Entries DCache2 = (CKey DCache Key, Value2) :: Rest.
Proof.
  intros HW HK.
  pose proof (wf_setAndRetain DCache Key Value1 HW HK) as HW1.
  do 4 eexists. split; [by apply setAndRetain_wf|].
  rewrite setAndRetain_wf by done.
  change (CKey (withEntries ?d ?e) ?k) with (CKey d k).
  change (DefaultCache.Entries (withEntries ?d ?e)) with e.
  destruct (evicted_same (CKey DCache Key) Value1
              (evicted VoidPtrInfo UIntPtrInfo (CKey DCache Key) (DefaultCache.Entries DCache)))
    as [-> ->].
  split; reflexivity.
Qed.

(** X7, the two reserved keys are compared as pointers: for every key,
    whatever its callbacks, [isEqual] with the empty or the tombstone key on
    either side is the comparison of the two pointers; the answer of
    [keyIsEqualCB] plays no part. *)
Theorem reserved_keys_compare_by_pointer (K : DefaultCacheKey.t) :
  isEqual VoidPtrInfo K (getEmptyKey VoidPtrInfo)
  = (DefaultCacheKey.Key K =? llvm.getEmptyKey VoidPtrInfo)
  ∧ isEqual VoidPtrInfo K (getTombstoneKey VoidPtrInfo)
    = (DefaultCacheKey.Key K =? llvm.getTombstoneKey VoidPtrInfo)
  ∧ isEqual VoidPtrInfo (getEmptyKey VoidPtrInfo) K
    = (llvm.getEmptyKey VoidPtrInfo =? DefaultCacheKey.Key K)
  ∧ isEqual VoidPtrInfo (getTombstoneKey VoidPtrInfo) K
    = (llvm.getTombstoneKey VoidPtrInfo =? DefaultCacheKey.Key K).
Proof.
  unfold isEqual, getEmptyKey, getTombstoneKey. simpl.
  repeat split;
    repeat match goal with
           | |- context [?a =? ?b] => destruct (N.eqb_spec a b)
           end; simpl; congruence.
Qed.

(** X8, the key info the cache hands to [DenseMap] is lawful when the
    callbacks keep their contract: on the keys of clients [isEqual] is
    reflexive (a key equals itself even if [keyIsEqualCB] denies it),
    symmetric and transitive, and keys that are [isEqual] have the same
    [getHashValue]. *)
Theorem key_info_is_lawful CBs :
  Contract CBs →
  (∀ K, isEqual VoidPtrInfo K K = true)
  ∧ (∀ K K', good VoidPtrInfo CBs K → good VoidPtrInfo CBs K' →
             isEqual VoidPtrInfo K K' = true → isEqual VoidPtrInfo K' K = true)
  ∧ (∀ K1 K2 K3,
       good VoidPtrInfo CBs K1 → good VoidPtrInfo CBs K2 → good VoidPtrInfo CBs K3 →
       isEqual VoidPtrInfo K1 K2 = true → isEqual VoidPtrInfo K2 K3 = true →
       isEqual VoidPtrInfo K1 K3 = true)
  ∧ (∀ K K', good VoidPtrInfo CBs K → good VoidPtrInfo CBs K' →
             isEqual VoidPtrInfo K K' = true →
             getHashValue UIntPtrInfo K = getHashValue UIntPtrInfo K').
Proof.
  intros HC. split; [apply isEqual_refl|]. split; [|split].
  - intros K K'. by apply isEqual_sym.
  - intros K1 K2 K3. by apply isEqual_trans.
  - intros K K'. by apply isEqual_getHashValue.
Qed.

End Properties.

(** * The properties at concrete caches *)

Lemma Mod8CBs_Contract : Contract Mod8CBs.
Proof.
  split; simpl.
  - intros a b H. apply N.eqb_eq in H. apply N.eqb_eq. congruence.
  - intros a b c H1 H2. apply N.eqb_eq in H1, H2. apply N.eqb_eq. congruence.
  - intros a b H. by apply N.eqb_eq in H.
Qed.

Lemma IntCBs_Contract : Contract IntCBs.
Proof.
  split; simpl.
  - intros a b H. apply N.eqb_eq in H. apply N.eqb_eq. congruence.
  - intros a b c H1 H2. apply N.eqb_eq in H1, H2. apply N.eqb_eq. congruence.
  - intros a b H. by apply N.eqb_eq in H.
Qed.

Lemma Mod8Cache_wf : wf LLVM_VoidPtrInfo Mod8Cache.
Proof.
  split.
  - exact Mod8CBs_Contract.
  - repeat constructor; discriminate.
  - repeat constructor.
Qed.

Lemma Mod8Pair_wf : wf LLVM_VoidPtrInfo Mod8Pair.
Proof.
  split.
  - exact Mod8CBs_Contract.
  - repeat constructor; discriminate.
  - repeat constructor.
Qed.

Ltac valid_keys := repeat constructor; discriminate.

Lemma uniqueness_witness :
  Contract Mod8CBs
  ∧ Forall (valid_op LLVM_VoidPtrInfo) [OpSet 1 100 0; OpSet 9 200 0; OpSet 2 300 0; OpRemove 2]
  ∧ ∃ DCache Log,
      run LLVM_VoidPtrInfo LLVM_UIntPtrInfo [OpSet 1 100 0; OpSet 9 200 0; OpSet 2 300 0; OpRemove 2]
          {| Impl := CacheImpl.create "mod8" Mod8CBs; Calls := [] |}
      = Some (tt, live DCache Log)
      ∧ ∀ Key1 Key2, keyIsEqualCB Mod8CBs Key1 Key2 = true →
          (length (filter (λ B, class Mod8CBs Key1 Key2 B) (DefaultCache.Entries DCache)) ≤ 1)%nat
          ∧ ∀ Value1 Value2 Cost1 Cost2,
              valid_key LLVM_VoidPtrInfo Key1 → valid_key LLVM_VoidPtrInfo Key2 →
              ∃ DCache' Log',
                run LLVM_VoidPtrInfo LLVM_UIntPtrInfo
                    [OpSet Key1 Value1 Cost1; OpSet Key2 Value2 Cost2] (live DCache Log)
                = Some (tt, live DCache' Log')
                ∧ filter (λ B, class Mod8CBs Key1 Key2 B) (DefaultCache.Entries DCache')
                  = [(DefaultCacheKey.mk Key2 (Some Mod8CBs), Value2)].
Proof.
  split; [exact Mod8CBs_Contract|]. split; [valid_keys|].
  apply (uniqueness LLVM_VoidPtrInfo LLVM_UIntPtrInfo "mod8" Mod8CBs).
  - exact Mod8CBs_Contract.
  - valid_keys.
Defined.

Lemma replace_destroys_old_witness :
  wf LLVM_VoidPtrInfo Mod8Cache
  ∧ valid_key LLVM_VoidPtrInfo 1 ∧ valid_key LLVM_VoidPtrInfo 9
  ∧ keyIsEqualCB (DefaultCache.CBs Mod8Cache) 1 9 = true
  ∧ ∃ DCache1 Log1 DCacheMid DCache2 Rest,
      CacheImpl.setAndRetain LLVM_VoidPtrInfo LLVM_UIntPtrInfo 1 100 0 (live Mod8Cache [])
      = Some (tt, live DCache1 Log1)
      ∧ DefaultCache.Entries DCache1 = (CKey Mod8Cache 1, 100) :: Rest
      ∧ CacheImpl.setAndRetain LLVM_VoidPtrInfo LLVM_UIntPtrInfo 9 200 0 (live DCache1 Log1)
        = Some (tt, live DCache2 (Log1 ++ [keyDestroyCB 1; valueDestroyCB 100]))
      ∧ DefaultCache.Entries DCache2 = (CKey Mod8Cache 9, 200) :: Rest
      ∧ (acquire;; CacheImpl.setAndRetain_evict LLVM_VoidPtrInfo LLVM_UIntPtrInfo (CKey Mod8Cache 9))
          (live DCache1 Log1)
        = Some (tt, live DCacheMid (Log1 ++ [keyDestroyCB 1; valueDestroyCB 100]))
      ∧ DefaultCache.Entries DCacheMid = Rest
      ∧ llvm.find (DefaultCacheKeyInfo LLVM_VoidPtrInfo LLVM_UIntPtrInfo) (CKey Mod8Cache 9) Rest = None
      ∧ (CacheImpl.setAndRetain_store LLVM_VoidPtrInfo LLVM_UIntPtrInfo (CKey Mod8Cache 9) 200;; release)
          (live DCacheMid (Log1 ++ [keyDestroyCB 1; valueDestroyCB 100]))
        = Some (tt, live DCache2 (Log1 ++ [keyDestroyCB 1; valueDestroyCB 100]))
      ∧ CacheImpl.getAndRetain LLVM_VoidPtrInfo LLVM_UIntPtrInfo 9 0
          (live DCache2 (Log1 ++ [keyDestroyCB 1; valueDestroyCB 100]))
        = Some ((true, 200), live DCache2 (Log1 ++ [keyDestroyCB 1; valueDestroyCB 100]))
      ∧ (keyDestroyCB 9 ∈ [keyDestroyCB 1; valueDestroyCB 100] ↔ 9 = 1)
      ∧ (valueDestroyCB 200 ∈ [keyDestroyCB 1; valueDestroyCB 100] ↔ 200 = 100).
Proof.
  split; [exact Mod8Cache_wf|]. split; [valid_keys|]. split; [valid_keys|].
  split; [reflexivity|].
  apply (replace_destroys_old LLVM_VoidPtrInfo LLVM_UIntPtrInfo Mod8Cache [] 1 100 0 9 200 0 0).
  - exact Mod8Cache_wf.
  - valid_keys.
  - valid_keys.
  - reflexivity.
Defined.

Lemma remove_round_trip_witness :
  valid_key LLVM_VoidPtrInfo 1 ∧ absent LLVM_VoidPtrInfo 1 Mod8Cache
  ∧ (CacheImpl.setAndRetain LLVM_VoidPtrInfo LLVM_UIntPtrInfo 1 100 0;;
     Removed ← CacheImpl.remove LLVM_VoidPtrInfo LLVM_UIntPtrInfo 1;
     Found ← CacheImpl.getAndRetain LLVM_VoidPtrInfo LLVM_UIntPtrInfo 1 55;
     mret (Removed, Found)) (live Mod8Cache [])
    = Some ((true, (false, 55)), live Mod8Cache ([] ++ [keyDestroyCB 1; valueDestroyCB 100])).
Proof.
  split; [valid_keys|]. split; [by repeat constructor|].
  apply (remove_round_trip LLVM_VoidPtrInfo LLVM_UIntPtrInfo Mod8Cache [] 1 100 0 55).
  - valid_keys.
  - by repeat constructor.
Defined.

Lemma absence_is_a_value_witness :
  valid_key LLVM_VoidPtrInfo 1 ∧ absent LLVM_VoidPtrInfo 1 Mod8Cache
  ∧ CacheImpl.getAndRetain LLVM_VoidPtrInfo LLVM_UIntPtrInfo 1 55 (live Mod8Cache [])
    = Some ((false, 55), live Mod8Cache [])
  ∧ CacheImpl.remove LLVM_VoidPtrInfo LLVM_UIntPtrInfo 1 (live Mod8Cache [])
    = Some (false, live Mod8Cache [])
  ∧ ∀ Name CBs,
      CacheImpl.remove LLVM_VoidPtrInfo LLVM_UIntPtrInfo 1
        {| Impl := CacheImpl.create Name CBs; Calls := [] |}
      = Some (false, {| Impl := CacheImpl.create Name CBs; Calls := [] |}).
Proof.
  split; [valid_keys|]. split; [by repeat constructor|].
  apply (absence_is_a_value LLVM_VoidPtrInfo LLVM_UIntPtrInfo Mod8Cache [] 1 55).
  - valid_keys.
  - by repeat constructor.
Defined.

Lemma fresh_insert_frame_witness :
  valid_key LLVM_VoidPtrInfo 1 ∧ absent LLVM_VoidPtrInfo 1 Mod8Cache
  ∧ CacheImpl.setAndRetain LLVM_VoidPtrInfo LLVM_UIntPtrInfo 1 100 0 (live Mod8Cache [])
    = Some (tt, live (withEntries Mod8Cache ((CKey Mod8Cache 1, 100) :: DefaultCache.Entries Mod8Cache))
                     []).
Proof.
  split; [valid_keys|]. split; [by repeat constructor|].
  apply (fresh_insert_frame LLVM_VoidPtrInfo LLVM_UIntPtrInfo Mod8Cache [] 1 100 0).
  - valid_keys.
  - by repeat constructor.
Defined.

(** ** The scenario of the design document

    [set(1, a); set(2, b); get(1)] gives [a]; [remove(1)] gives [true];
    [get(1)] is not-found; [get(2)] gives [b]; after [destroy] the handle is
    gone, the entry of 2 was destroyed, and a further call is undefined.
    The values are the pointers 100 and 200. *)
Example scenario :
  (CacheImpl.setAndRetain LLVM_VoidPtrInfo LLVM_UIntPtrInfo 1 100 0;;
   CacheImpl.setAndRetain LLVM_VoidPtrInfo LLVM_UIntPtrInfo 2 200 0;;
   g1 ← CacheImpl.getAndRetain LLVM_VoidPtrInfo LLVM_UIntPtrInfo 1 0;
   r1 ← CacheImpl.remove LLVM_VoidPtrInfo LLVM_UIntPtrInfo 1;
   g2 ← CacheImpl.getAndRetain LLVM_VoidPtrInfo LLVM_UIntPtrInfo 1 0;
   g3 ← CacheImpl.getAndRetain LLVM_VoidPtrInfo LLVM_UIntPtrInfo 2 0;
   CacheImpl.destroy;;
   mret (g1, r1, g2, g3)) {| Impl := CacheImpl.create "ints" IntCBs; Calls := [] |}
  = Some (((true, 100), true, (false, 0), (true, 200)),
          {| Impl := None;
             Calls := [keyDestroyCB 1; valueDestroyCB 100; keyDestroyCB 2; valueDestroyCB 200] |})
  ∧ CacheImpl.getAndRetain LLVM_VoidPtrInfo LLVM_UIntPtrInfo 2 0
      {| Impl := None;
         Calls := [keyDestroyCB 1; valueDestroyCB 100; keyDestroyCB 2; valueDestroyCB 200] |}
    = None.
Proof. split; reflexivity. Qed.

(** Equal keys behind distinct pointers: the second [set] replaces. *)
Example replace_mod8 :
  run LLVM_VoidPtrInfo LLVM_UIntPtrInfo [OpSet 1 100 0; OpSet 9 200 0]
      {| Impl := CacheImpl.create "mod8" Mod8CBs; Calls := [] |}
  = Some (tt, live (DefaultCache.mk 0 Mod8CBs [(DefaultCacheKey.mk 9 (Some Mod8CBs), 200)])
                   [keyDestroyCB 1; valueDestroyCB 100]).
Proof. reflexivity. Qed.

(** The contract is needed: when equal keys hash differently, the lookup
    of the second [set] misses the bucket of the first, and both stay. *)
Example hash_contract_needed :
  keyIsEqualCB BadHashCBs 1 9 = true
  ∧ run LLVM_VoidPtrInfo LLVM_UIntPtrInfo [OpSet 1 100 0; OpSet 9 200 0]
        {| Impl := CacheImpl.create "bad" BadHashCBs; Calls := [] |}
    = Some (tt, live (DefaultCache.mk 0 BadHashCBs
                        [(DefaultCacheKey.mk 9 (Some BadHashCBs), 200);
                         (DefaultCacheKey.mk 1 (Some BadHashCBs), 100)])
                     []).
Proof. split; reflexivity. Qed.

(** C2 as it is worded, with "never on the new pair", fails where the new
    pair shares a pointer with the old one.  With the keys compared by
    [==], [set(1, 100)] then [set(1, 200)] invokes [keyDestroyCB] on the
    pointer 1, which is the key of the new pair and the key stored
    afterwards.  With the keys compared modulo 8, [set(1, 100)] then
    [set(9, 100)] invokes [valueDestroyCB] on the pointer 100, which is the
    value of the new pair and the value stored afterwards. *)
Lemma replace_invokes_callbacks_on_new_pair :
  (keyIsEqualCB IntCBs 1 1 = true
   ∧ run LLVM_VoidPtrInfo LLVM_UIntPtrInfo [OpSet 1 100 0; OpSet 1 200 0]
         {| Impl := CacheImpl.create "int" IntCBs; Calls := [] |}
     = Some (tt, live (DefaultCache.mk 0 IntCBs [(DefaultCacheKey.mk 1 (Some IntCBs), 200)])
                      [keyDestroyCB 1; valueDestroyCB 100])
   ∧ keyDestroyCB 1 ∈ [keyDestroyCB 1; valueDestroyCB 100])
  ∧ (keyIsEqualCB Mod8CBs 1 9 = true
     ∧ run LLVM_VoidPtrInfo LLVM_UIntPtrInfo [OpSet 1 100 0; OpSet 9 100 0]
           {| Impl := CacheImpl.create "mod8" Mod8CBs; Calls := [] |}
       = Some (tt, live (DefaultCache.mk 0 Mod8CBs
                           [(DefaultCacheKey.mk 9 (Some Mod8CBs), 100)])
                        [keyDestroyCB 1; valueDestroyCB 100])
     ∧ valueDestroyCB 100 ∈ [keyDestroyCB 1; valueDestroyCB 100]).
Proof.
  split; (split; [reflexivity|]); (split; [reflexivity|]).
  - by left.
  - right. by left.
Qed.


Lemma every_pair_destroyed_once_witness :
  Contract Mod8CBs
  ∧ Forall (valid_op LLVM_VoidPtrInfo)
      [OpSet 1 100 0; OpSet 9 200 0; OpGet 1 0; OpRemove 2; OpSet 2 300 0]
  ∧ ∃ Log,
      (run LLVM_VoidPtrInfo LLVM_UIntPtrInfo
         [OpSet 1 100 0; OpSet 9 200 0; OpGet 1 0; OpRemove 2; OpSet 2 300 0];;
       CacheImpl.destroy)
        {| Impl := CacheImpl.create "mod8" Mod8CBs; Calls := [] |}
      = Some (tt, {| Impl := None; Calls := Log |})
      ∧ Log ≡ₚ [keyDestroyCB 1; valueDestroyCB 100; keyDestroyCB 9; valueDestroyCB 200;
                keyDestroyCB 2; valueDestroyCB 300].
Proof.
  split; [exact Mod8CBs_Contract|]. split; [valid_keys|].
  apply (every_pair_destroyed_once LLVM_VoidPtrInfo LLVM_UIntPtrInfo "mod8" Mod8CBs
           [OpSet 1 100 0; OpSet 9 200 0; OpGet 1 0; OpRemove 2; OpSet 2 300 0]).
  - exact Mod8CBs_Contract.
  - valid_keys.
Defined.

Lemma lookup_after_set_witness :
  wf LLVM_VoidPtrInfo Mod8Cache
  ∧ valid_key LLVM_VoidPtrInfo 1 ∧ valid_key LLVM_VoidPtrInfo 9
  ∧ (9 = 1 ∨ keyIsEqualCB (DefaultCache.CBs Mod8Cache) 1 9 = true)
  ∧ ∃ w',
      CacheImpl.setAndRetain LLVM_VoidPtrInfo LLVM_UIntPtrInfo 1 100 0 (live Mod8Cache [])
      = Some (tt, w')
      ∧ CacheImpl.getAndRetain LLVM_VoidPtrInfo LLVM_UIntPtrInfo 9 0 w'
        = Some ((true, 100), w').
Proof.
  split; [exact Mod8Cache_wf|]. split; [valid_keys|]. split; [valid_keys|].
  split; [right; reflexivity|].
  apply (lookup_after_set LLVM_VoidPtrInfo LLVM_UIntPtrInfo Mod8Cache [] 1 100 0 9 0).
  - exact Mod8Cache_wf.
  - valid_keys.
  - valid_keys.
  - right. reflexivity.
Defined.

Lemma set_keeps_other_keys_witness :
  wf LLVM_VoidPtrInfo Mod8Cache
  ∧ valid_key LLVM_VoidPtrInfo 1 ∧ valid_key LLVM_VoidPtrInfo 3
  ∧ isEqual LLVM_VoidPtrInfo (CKey Mod8Cache 3) (CKey Mod8Cache 1) = false
  ∧ ∃ w',
      CacheImpl.setAndRetain LLVM_VoidPtrInfo LLVM_UIntPtrInfo 1 100 0 (live Mod8Cache [])
      = Some (tt, w')
      ∧ fst <$> CacheImpl.getAndRetain LLVM_VoidPtrInfo LLVM_UIntPtrInfo 3 0 w'
        = fst <$> CacheImpl.getAndRetain LLVM_VoidPtrInfo LLVM_UIntPtrInfo 3 0
                    (live Mod8Cache []).
Proof.
  split; [exact Mod8Cache_wf|]. split; [valid_keys|]. split; [valid_keys|].
  split; [reflexivity|].
  apply (set_keeps_other_keys LLVM_VoidPtrInfo LLVM_UIntPtrInfo Mod8Cache [] 1 100 0 3 0).
  - exact Mod8Cache_wf.
  - valid_keys.
  - valid_keys.
  - reflexivity.
Defined.

Lemma remove_keeps_other_keys_witness :
  wf LLVM_VoidPtrInfo Mod8Pair
  ∧ valid_key LLVM_VoidPtrInfo 11 ∧ valid_key LLVM_VoidPtrInfo 4
  ∧ isEqual LLVM_VoidPtrInfo (CKey Mod8Pair 4) (CKey Mod8Pair 11) = false
  ∧ CacheImpl.remove LLVM_VoidPtrInfo LLVM_UIntPtrInfo 11 (live Mod8Pair [])
    = Some (true, live (DefaultCache.mk 0 Mod8CBs [(DefaultCacheKey.mk 4 (Some Mod8CBs), 8)])
                       [keyDestroyCB 3; valueDestroyCB 7])
  ∧ fst <$> CacheImpl.getAndRetain LLVM_VoidPtrInfo LLVM_UIntPtrInfo 4 0 (live Mod8Pair [])
    = Some (true, 8)
  ∧ ∃ Removed w',
      CacheImpl.remove LLVM_VoidPtrInfo LLVM_UIntPtrInfo 11 (live Mod8Pair [])
      = Some (Removed, w')
      ∧ fst <$> CacheImpl.getAndRetain LLVM_VoidPtrInfo LLVM_UIntPtrInfo 4 0 w'
        = fst <$> CacheImpl.getAndRetain LLVM_VoidPtrInfo LLVM_UIntPtrInfo 4 0
                    (live Mod8Pair []).
Proof.
  split; [exact Mod8Pair_wf|]. split; [valid_keys|]. split; [valid_keys|].
  split; [reflexivity|]. split; [reflexivity|]. split; [reflexivity|].
  apply (remove_keeps_other_keys LLVM_VoidPtrInfo LLVM_UIntPtrInfo Mod8Pair [] 11 4 0).
  - exact Mod8Pair_wf.
  - valid_keys.
  - valid_keys.
  - reflexivity.
Defined.

Lemma remove_then_absent_witness :
  wf LLVM_VoidPtrInfo Mod8Cache ∧ valid_key LLVM_VoidPtrInfo 3
  ∧ ∃ Removed w',
      CacheImpl.remove LLVM_VoidPtrInfo LLVM_UIntPtrInfo 3 (live Mod8Cache [])
      = Some (Removed, w')
      ∧ (fst ∘ fst) <$> CacheImpl.getAndRetain LLVM_VoidPtrInfo LLVM_UIntPtrInfo 3 0
                          (live Mod8Cache [])
        = Some Removed
      ∧ CacheImpl.remove LLVM_VoidPtrInfo LLVM_UIntPtrInfo 3 w' = Some (false, w')
      ∧ CacheImpl.getAndRetain LLVM_VoidPtrInfo LLVM_UIntPtrInfo 3 0 w'
        = Some ((false, 0), w').
Proof.
  split; [exact Mod8Cache_wf|]. split; [valid_keys|].
  apply (remove_then_absent LLVM_VoidPtrInfo LLVM_UIntPtrInfo Mod8Cache [] 3 0).
  - exact Mod8Cache_wf.
  - valid_keys.
Defined.

Lemma same_pointer_is_destroyed_and_stored_witness :
  wf LLVM_VoidPtrInfo Mod8Cache ∧ valid_key LLVM_VoidPtrInfo 1
  ∧ ∃ DCache1 Log1 DCache2 Rest,
      CacheImpl.setAndRetain LLVM_VoidPtrInfo LLVM_UIntPtrInfo 1 100 0 (live Mod8Cache [])
      = Some (tt, live DCache1 Log1)
      ∧ CacheImpl.setAndRetain LLVM_VoidPtrInfo LLVM_UIntPtrInfo 1 200 0 (live DCache1 Log1)
        = Some (tt, live DCache2 (Log1 ++ [keyDestroyCB 1; valueDestroyCB 100]))
      ∧ DefaultCache.Entries DCache2 = (CKey Mod8Cache 1, 200) :: Rest.
Proof.
  split; [exact Mod8Cache_wf|]. split; [valid_keys|].
  apply (same_pointer_is_destroyed_and_stored LLVM_VoidPtrInfo LLVM_UIntPtrInfo
           Mod8Cache [] 1 100 0 200 0).
  - exact Mod8Cache_wf.
  - valid_keys.
Defined.

Lemma key_info_is_lawful_witness :
  Contract Mod8CBs
  ∧ (∀ K, isEqual LLVM_VoidPtrInfo K K = true)
  ∧ (∀ K K', good LLVM_VoidPtrInfo Mod8CBs K → good LLVM_VoidPtrInfo Mod8CBs K' →
             isEqual LLVM_VoidPtrInfo K K' = true → isEqual LLVM_VoidPtrInfo K' K = true)
  ∧ (∀ K1 K2 K3,
       good LLVM_VoidPtrInfo Mod8CBs K1 → good LLVM_VoidPtrInfo Mod8CBs K2 →
       good LLVM_VoidPtrInfo Mod8CBs K3 →
       isEqual LLVM_VoidPtrInfo K1 K2 = true → isEqual LLVM_VoidPtrInfo K2 K3 = true →
       isEqual LLVM_VoidPtrInfo K1 K3 = true)
  ∧ (∀ K K', good LLVM_VoidPtrInfo Mod8CBs K → good LLVM_VoidPtrInfo Mod8CBs K' →
             isEqual LLVM_VoidPtrInfo K K' = true →
             getHashValue LLVM_UIntPtrInfo K = getHashValue LLVM_UIntPtrInfo K').
Proof.
  split; [exact Mod8CBs_Contract|].
  apply (key_info_is_lawful LLVM_VoidPtrInfo LLVM_UIntPtrInfo Mod8CBs).
  exact Mod8CBs_Contract.
Defined.

(** * [Version]: comparison *)
Module version_facts.
Import version.

(** The component at [i], zero past the end: what both loops compare. *)
Lemma padded (v : Version) (i : nat) :
  (if (i <? size v)%nat then at_ v i else 0) = nth i (Components v) 0.
Proof.
  unfold at_, size. destruct (Nat.ltb_spec i (length (Components v))); [done|].
  by rewrite nth_overflow.
Qed.

Lemma eq_loop_spec lhs rhs todo : ∀ i,
  eq_loop lhs rhs i todo = true ↔
  ∀ j, (i ≤ j < i + todo)%nat → nth j (Components lhs) 0 = nth j (Components rhs) 0.
Proof.
  induction todo as [|todo IH]; intros i; simpl.
  - split; [intros _ j Hj; lia|done].
  - rewrite !padded.
    destruct (N.eqb_spec (nth i (Components lhs) 0) (nth i (Components rhs) 0)) as [E|E]; simpl.
    + rewrite IH. split.
      * intros H j Hj. destruct (decide (j = i)) as [->|]; [done|]. apply H. lia.
      * intros H j Hj. apply H. lia.
    + split; [done|]. intros H. destruct E. apply H. lia.
Qed.

Lemma eq_spec lhs rhs :
  eq lhs rhs = true ↔ ∀ j, nth j (Components lhs) 0 = nth j (Components rhs) 0.
Proof.
  unfold eq. rewrite eq_loop_spec. split; [|by auto].
  intros H j. destruct (Nat.lt_ge_cases j (max (size lhs) (size rhs))) as [Hj|Hj].
  - apply H. lia.
  - unfold size in Hj. rewrite !nth_overflow; [done|lia..].
Qed.

(** X9, [operator==] compares the components with the shorter version padded
    by zeros: it is an equivalence relation, and trailing zero components do
    not count, so that the empty version equals every version of zeros. *)
Theorem eq_is_equivalence_modulo_zeros :
  (∀ a, eq a a = true)
  ∧ (∀ a b, eq a b = true → eq b a = true)
  ∧ (∀ a b c, eq a b = true → eq b c = true → eq a c = true)
  ∧ (∀ a k, eq a (mk (Components a ++ repeat 0 k)) = true)
  ∧ (∀ a b, eq a b = true ↔ ∀ j, nth j (Components a) 0 = nth j (Components b) 0).
Proof.
  split; [|split; [|split; [|split]]].
  - intros a. by apply eq_spec.
  - intros a b. rewrite !eq_spec. intros H j. by rewrite H.
  - intros a b c. rewrite !eq_spec. intros H1 H2 j. by rewrite H1.
  - intros a k. apply eq_spec. intros j. simpl.
    destruct (Nat.lt_ge_cases j (length (Components a))) as [Hj|Hj].
    + by rewrite app_nth1.
    + rewrite app_nth2, nth_overflow by done.
      generalize (j - length (Components a))%nat. clear.
      induction k as [|k IH]; intros [|n]; simpl; auto.
  - apply eq_spec.
Qed.

Lemma ge_loop_zeros lhs rhs todo : ∀ i,
  (max (size lhs) (size rhs) ≤ i)%nat → ge_loop lhs rhs i todo = true.
Proof.
  induction todo as [|todo IH]; intros i Hi; simpl; [done|].
  rewrite !padded. unfold size in Hi. rewrite !nth_overflow by lia.
  simpl. apply IH. unfold size. lia.
Qed.

(** Running the loop of [operator>=] past both ends changes nothing. *)
Lemma ge_loop_more lhs rhs n : ∀ i k,
  (max (size lhs) (size rhs) ≤ i + n)%nat →
  ge_loop lhs rhs i (n + k) = ge_loop lhs rhs i n.
Proof.
  induction n as [|n IH]; intros i k Hi; simpl.
  - apply ge_loop_zeros. lia.
  - rewrite !padded. destruct (_ <? _); [done|]. destruct (_ <? _); [done|].
    apply IH. lia.
Qed.

Lemma ge_bound lhs rhs m :
  empty lhs = false → (max (size lhs) (size rhs) ≤ m)%nat →
  ge lhs rhs = ge_loop lhs rhs 0 m.
Proof.
  intros HE Hm. unfold ge. rewrite HE.
  replace m with (max (size lhs) (size rhs) + (m - max (size lhs) (size rhs)))%nat by lia.
  symmetry. apply ge_loop_more. lia.
Qed.

Lemma ge_loop_refl a todo : ∀ i, ge_loop a a i todo = true.
Proof.
  induction todo as [|todo IH]; intros i; simpl; [done|].
  rewrite padded, N.ltb_irrefl. apply IH.
Qed.

Lemma ge_loop_total a b todo : ∀ i,
  ge_loop a b i todo = true ∨ ge_loop b a i todo = true.
Proof.
  induction todo as [|todo IH]; intros i; simpl; [by left|].
  rewrite !padded.
  destruct (N.ltb_spec (nth i (Components a) 0) (nth i (Components b) 0)),
           (N.ltb_spec (nth i (Components b) 0) (nth i (Components a) 0));
    auto; lia.
Qed.

Lemma ge_loop_trans a b c todo : ∀ i,
  ge_loop a b i todo = true → ge_loop b c i todo = true → ge_loop a c i todo = true.
Proof.
  induction todo as [|todo IH]; intros i; simpl; [done|].
  rewrite !padded.
  destruct (N.ltb_spec (nth i (Components a) 0) (nth i (Components b) 0)),
           (N.ltb_spec (nth i (Components b) 0) (nth i (Components a) 0)),
           (N.ltb_spec (nth i (Components b) 0) (nth i (Components c) 0)),
           (N.ltb_spec (nth i (Components c) 0) (nth i (Components b) 0)),
           (N.ltb_spec (nth i (Components a) 0) (nth i (Components c) 0)),
           (N.ltb_spec (nth i (Components c) 0) (nth i (Components a) 0));
    try done; try lia.
  apply IH.
Qed.

Lemma ge_loop_antisym a b todo : ∀ i,
  ge_loop a b i todo = true → ge_loop b a i todo = true → eq_loop a b i todo = true.
Proof.
  induction todo as [|todo IH]; intros i; simpl; [done|].
  rewrite !padded.
  destruct (N.ltb_spec (nth i (Components a) 0) (nth i (Components b) 0)),
           (N.ltb_spec (nth i (Components b) 0) (nth i (Components a) 0));
    try done; try lia.
  replace (nth i (Components a) 0 =? nth i (Components b) 0) with true
    by (symmetry; apply N.eqb_eq; lia).
  apply IH.
Qed.

Lemma eq_loop_ge_loop a b todo : ∀ i,
  eq_loop a b i todo = true → ge_loop a b i todo = true.
Proof.
  induction todo as [|todo IH]; intros i; simpl; [done|].
  rewrite !padded.
  destruct (N.eqb_spec (nth i (Components a) 0) (nth i (Components b) 0)) as [->|]; [|done].
  rewrite N.ltb_irrefl. apply IH.
Qed.

Lemma eq_bound lhs rhs m :
  (max (size lhs) (size rhs) ≤ m)%nat → eq lhs rhs = eq_loop lhs rhs 0 m.
Proof.
  intros Hm. apply eq_true_iff_eq. rewrite eq_spec, eq_loop_spec. split; [by auto|].
  intros H j. destruct (Nat.lt_ge_cases j m) as [Hj|Hj]; [apply H; lia|].
  unfold size in Hm. rewrite !nth_overflow; [done|lia..].
Qed.

(** X10, [operator>=] orders the versions that are not empty: it is
    reflexive and total, transitive as long as the version in the middle is
    not empty, and two non-empty versions that are [>=] each other are
    [==]; equal versions are [>=] each other. *)
Theorem ge_orders_versions :
  (∀ a, ge a a = true)
  ∧ (∀ a b, ge a b = true ∨ ge b a = true)
  ∧ (∀ a b c, empty b = false → ge a b = true → ge b c = true → ge a c = true)
  ∧ (∀ a b, empty a = false → empty b = false →
            ge a b = true → ge b a = true → eq a b = true)
  ∧ (∀ a b, eq a b = true → ge a b = true).
Proof.
  split; [|split; [|split; [|split]]].
  - intros a. unfold ge. destruct (empty a); [done|]. apply ge_loop_refl.
  - intros a b. destruct (empty a) eqn:Ha; [left; unfold ge; by rewrite Ha|].
    destruct (empty b) eqn:Hb; [right; unfold ge; by rewrite Hb|].
    rewrite (ge_bound a b (max (size a) (size b))), (ge_bound b a (max (size a) (size b)))
      by (done || lia).
    apply ge_loop_total.
  - intros a b c Hb. destruct (empty a) eqn:Ha; [intros _ _; unfold ge; by rewrite Ha|].
    set (m := max (size a) (max (size b) (size c))).
    rewrite (ge_bound a b m), (ge_bound b c m), (ge_bound a c m) by (done || lia).
    apply ge_loop_trans.
  - intros a b Ha Hb.
    rewrite (ge_bound a b (max (size a) (size b))), (ge_bound b a (max (size a) (size b))),
      (eq_bound a b (max (size a) (size b))) by (done || lia).
    apply ge_loop_antisym.
  - intros a b. destruct (empty a) eqn:Ha; [intros _; unfold ge; by rewrite Ha|].
    rewrite (ge_bound a b (max (size a) (size b))),
      (eq_bound a b (max (size a) (size b))) by (done || lia).
    apply eq_loop_ge_loop.
Qed.

Lemma ge_loop_empty_rhs a todo : ∀ i, ge_loop a (mk []) i todo = true.
Proof.
  induction todo as [|todo IH]; intros i; simpl; [done|].
  destruct (if (i <? size a)%nat then at_ a i else 0) eqn:E; simpl; [apply IH|done].
Qed.

(** X11, the empty version is the latest and the earliest at once: on the
    left of [operator>=] it is at least every version, and on the right it
    counts as zeros, so that every version is at least the empty one.  Hence
    [operator>=] is not transitive, and does not respect [operator==]. *)
Theorem empty_version_is_latest_and_zero :
  (∀ c, ge (mk []) c = true)
  ∧ (∀ a, ge a (mk []) = true)
  ∧ ¬ (∀ a b c, ge a b = true → ge b c = true → ge a c = true)
  ∧ ¬ (∀ a b c, eq a b = true → ge a c = ge b c).
Proof.
  split; [done|]. split; [|split].
  - intros a. unfold ge. destruct (empty a); [done|]. apply ge_loop_empty_rhs.
  - intros H. by specialize (H (mk [1]) (mk []) (mk [5]) eq_refl eq_refl).
  - intros H. by specialize (H (mk []) (mk [0]) (mk [5]) eq_refl).
Qed.

Lemma ge_loop_major c cs todo : ∀ i,
  (1 ≤ i)%nat → ge_loop (mk (c :: cs)) (mk [c]) i todo = true.
Proof.
  induction todo as [|todo IH]; intros i Hi; simpl; [done|].
  rewrite !padded.
  replace (nth i (Components (mk [c])) 0) with 0
    by (destruct i as [|[|?]]; [lia|done|done]).
  destruct (nth i (Components (mk (c :: cs))) 0); simpl; [apply IH; lia|done].
Qed.

(** X12, [asMajorVersion] keeps the first component only: its result has at
    most one component, is empty exactly for the empty version, is left as it
    is by a second application, and is never later than the version. *)
Theorem asMajorVersion_is_a_lower_bound (v : Version) :
  (size (asMajorVersion v) ≤ 1)%nat
  ∧ empty (asMajorVersion v) = empty v
  ∧ Components (asMajorVersion v) = take 1 (Components v)
  ∧ asMajorVersion (asMajorVersion v) = asMajorVersion v
  ∧ ge v (asMajorVersion v) = true.
Proof.
  destruct v as [[|c cs]].
  { repeat split; simpl; auto. }
  repeat split; try done; try (simpl; lia).
  change (asMajorVersion (mk (c :: cs))) with (mk [c]).
  unfold ge. cbn [empty Components size length Nat.max ge_loop].
  change (0 <? S (length cs))%nat with true. change (0 <? 1)%nat with true.
  unfold at_. cbn [Components nth]. rewrite N.ltb_irrefl.
  apply ge_loop_major. lia.
Qed.

(** ** Texts and numbers *)

Lemma CharVal_digit (m : N) : m < 10 → CharVal (ascii_of_N (48 + m)) = Some m.
Proof.
  intros Hm. unfold CharVal. rewrite N_ascii_embedding by lia.
  replace (48 <=? 48 + m) with true by (symmetry; apply N.leb_le; lia).
  replace (48 + m <=? 57) with true by (symmetry; apply N.leb_le; lia).
  simpl. f_equal. lia.
Qed.

Lemma CharVal_bound c m : CharVal c = Some m → m < 10.
Proof.
  unfold CharVal.
  destruct (N.leb_spec 48 (N_of_ascii c)), (N.leb_spec (N_of_ascii c) 57);
    simpl; intros [= <-]; lia.
Qed.

Lemma CharVal_not_dot c m : CharVal c = Some m → Ascii.eqb c "." = false.
Proof.
  intros H. destruct (Ascii.eqb_spec c "."%char) as [->|]; [|done].
  by vm_compute in H.
Qed.

Lemma all_digits_dot_free Str : all_digits Str = true → dot_free Str = true.
Proof.
  induction Str as [|c Str IH]; simpl; [done|].
  destruct (CharVal c) as [m|] eqn:E; simpl; [|done].
  intros H. by rewrite (CharVal_not_dot _ _ E), IH.
Qed.

Lemma append_assoc (s t u : string) : ((s ++ t) ++ u = s ++ (t ++ u))%string.
Proof. induction s as [|c s IH]; simpl; [done|]. by rewrite IH. Qed.

Lemma append_nil_r (s : string) : (s ++ "" = s)%string.
Proof. induction s as [|c s IH]; simpl; [done|]. by rewrite IH. Qed.

Lemma write_digits_app fuel : ∀ Value Buffer,
  write_digits fuel Value Buffer = (write_digits fuel Value "" ++ Buffer)%string.
Proof.
  induction fuel as [|fuel IH]; intros Value Buffer; simpl; [done|].
  destruct (Value / 10 =? 0); [done|].
  rewrite IH, (IH _ (String _ "")). by rewrite append_assoc.
Qed.

Lemma all_digits_app (s t : string) :
  all_digits (s ++ t) = all_digits s && all_digits t.
Proof.
  induction s as [|c s IH]; simpl; [done|]. by rewrite IH, andb_assoc.
Qed.

Lemma write_digits_all_digits fuel : ∀ Value Buffer,
  all_digits Buffer = true → all_digits (write_digits fuel Value Buffer) = true.
Proof.
  induction fuel as [|fuel IH]; intros Value Buffer HB; simpl; [done|].
  assert (all_digits (String (ascii_of_N (48 + Value mod 10)) Buffer) = true) as H.
  { simpl. rewrite CharVal_digit, HB; [done|]. apply N.mod_lt. lia. }
  destruct (Value / 10 =? 0); [done|]. by apply IH.
Qed.

Lemma write_digits_S fuel Value Buffer :
  write_digits (S fuel) Value Buffer
  = if Value / 10 =? 0 then String (ascii_of_N (48 + Value mod 10)) Buffer
    else write_digits fuel (Value / 10) (String (ascii_of_N (48 + Value mod 10)) Buffer).
Proof. reflexivity. Qed.

Lemma write_digits_nonempty fuel Value Buffer :
  write_digits (S fuel) Value Buffer ≠ EmptyString.
Proof.
  rewrite write_digits_S. destruct (Value / 10 =? 0); [done|].
  rewrite write_digits_app. by destruct (write_digits fuel _ _).
Qed.

Lemma write_unsigned_digits Value :
  all_digits (write_unsigned Value) = true ∧ write_unsigned Value ≠ EmptyString.
Proof.
  split; [by apply write_digits_all_digits|]. apply (write_digits_nonempty 19).
Qed.

(** Reading the digits that were written gives the number back. *)
Lemma consume_write_digits fuel : ∀ Value Buffer,
  Value < 10 ^ N.of_nat fuel → Value < 2 ^ 64 →
  consumeUnsignedInteger (write_digits fuel Value Buffer) 0
  = consumeUnsignedInteger Buffer Value.
Proof.
  induction fuel as [|fuel IH]; intros Value Buffer HV H64.
  - simpl in *. by replace Value with 0 by lia.
  - rewrite write_digits_S.
    assert (Value mod 10 < 10) as Hm by (apply N.mod_lt; lia).
    assert (Value = 10 * (Value / 10) + Value mod 10) as HD by (apply N.div_mod; lia).
    destruct (N.eqb_spec (Value / 10) 0) as [E0|E0].
    + cbn [consumeUnsignedInteger]. rewrite CharVal_digit by done. cbn zeta.
      replace ((0 * 10 + Value mod 10) mod 2 ^ 64) with Value
        by (rewrite N.mod_small; lia).
      rewrite E0. by rewrite N.ltb_irrefl.
    + rewrite IH.
      * cbn [consumeUnsignedInteger]. rewrite CharVal_digit by done. cbn zeta.
        replace ((Value / 10 * 10 + Value mod 10) mod 2 ^ 64) with Value
          by (rewrite N.mod_small; lia).
        by rewrite N.ltb_irrefl.
      * rewrite Nat2N.inj_succ, N.pow_succ_r' in HV.
        apply N.Div0.div_lt_upper_bound. lia.
      * assert (Value / 10 ≤ Value) by (apply N.Div0.div_le_upper_bound; lia). lia.
Qed.

Lemma getAsInteger_write_unsigned Value :
  Value < 2 ^ 64 → getAsInteger (write_unsigned Value) = Some Value.
Proof.
  intros H64. unfold getAsInteger.
  destruct (write_unsigned Value) eqn:E; [by apply write_unsigned_digits in E|].
  rewrite <- E. unfold write_unsigned. rewrite consume_write_digits; [done| |done].
  eapply N.lt_trans; [exact H64|]. by vm_compute.
Qed.

(** ** Splitting at the dots *)

Lemma split_dot_free Str :
  dot_free Str = true → split "." Str = (Str, EmptyString).
Proof.
  induction Str as [|c Str IH]; simpl; [done|].
  destruct (Ascii.eqb c "."); simpl; [done|]. intros H. by rewrite IH.
Qed.

Lemma split_at_dot Str Rest :
  dot_free Str = true → split "." (Str ++ String "." Rest) = (Str, Rest).
Proof.
  induction Str as [|c Str IH]; simpl; [done|].
  destruct (Ascii.eqb c "."); simpl; [done|]. intros H. by rewrite IH.
Qed.

(** What [split] returns: a first part without a dot, and the text is that
    part alone or that part, a dot and the rest. *)
Lemma split_spec Str :
  let '(Before, After) := split "." Str in
  dot_free Before = true
  ∧ (Str = Before ∧ After = EmptyString ∨ Str = (Before ++ String "." After)%string)
  ∧ (String.length After ≤ String.length Str)%nat
  ∧ (Str ≠ EmptyString → String.length After < String.length Str)%nat.
Proof.
  induction Str as [|c Str IH]; simpl.
  - repeat split; auto. by intros [].
  - destruct (Ascii.eqb_spec c "."%char) as [->|Hc].
    + repeat split; auto; lia.
    + destruct (split "." Str) as [Before After]. destruct IH as (H1 & H2 & H3 & H4).
      simpl. rewrite (proj2 (Ascii.eqb_neq _ _) Hc). simpl.
      repeat split; [done| |lia|lia].
      destruct H2 as [ [-> ->] | -> ]; [by left|by right].
Qed.

Lemma length_append (s t : string) :
  String.length (s ++ t) = (String.length s + String.length t)%nat.
Proof. induction s as [|c s IH]; simpl; [done|]. by rewrite IH. Qed.

(** The loop on the parts of a text put together with dots. *)
Lemma split_loop_join Parts : ∀ fuel SplitComponents Loc Start End,
  Forall (λ Part, dot_free Part = true ∧ Part ≠ EmptyString) Parts →
  (String.length (join Parts) ≤ fuel)%nat →
  ∃ Ranges,
    split_loop fuel SplitComponents (join Parts) Loc Start End
    = (SplitComponents ++ zip Parts Ranges, EmptyString)
    ∧ length Ranges = length Parts.
Proof.
  induction Parts as [|Part [|Part' More] IH]; intros fuel SC Loc Start End HP Hf.
  - exists []. rewrite app_nil_r. by destruct fuel.
  - inversion HP as [|? ? [HD HN] _]; subst. cbn [join] in *.
    destruct fuel as [|fuel]; [destruct Part; simpl in *; [done|lia]|].
    cbn [split_loop]. destruct Part as [|c Part]; [done|].
    rewrite (split_dot_free _ HD). eexists [_]. split; [|done].
    by destruct fuel.
  - inversion HP as [|? ? [HD HN] HP']; subst.
    change (join (Part :: Part' :: More))
      with (Part ++ String "." (join (Part' :: More)))%string in *.
    rewrite length_append in Hf. cbn [String.length] in Hf.
    destruct fuel as [|fuel]; [lia|]. cbn [split_loop].
    destruct (Part ++ String "." (join (Part' :: More)))%string eqn:E;
      [by destruct Part|]. rewrite <- E. clear E.
    rewrite (split_at_dot _ _ HD).
    edestruct (IH fuel) as (Ranges & -> & HL); [exact HP'|lia|].
    eexists (_ :: Ranges). rewrite <- app_assoc. split; [reflexivity|]. simpl. by rewrite HL.
Qed.

(** ** Printing, and parsing what was printed *)

Lemma print_loop_join cs : ∀ pre c os,
  print_loop (mk (pre ++ c :: cs)) (S (length pre)) (length cs) (os ++ write_unsigned c)
  = (os ++ join (map write_unsigned (c :: cs)))%string.
Proof.
  induction cs as [|c' cs IH]; intros pre c os; [done|].
  cbn [length print_loop].
  replace (at_ (mk (pre ++ c :: c' :: cs)) (S (length pre))) with c'.
  2:{ unfold at_. cbn [Components]. rewrite app_nth2 by lia.
      by replace (S (length pre) - length pre)%nat with 1%nat by lia. }
  specialize (IH (pre ++ [c]) c' (os ++ write_unsigned c ++ String "." EmptyString)%string).
  rewrite <- app_assoc, length_app in IH. cbn [length app] in IH.
  replace (length pre + 1)%nat with (S (length pre)) in IH by lia.
  rewrite !append_assoc in IH |- *. cbn [String.append] in IH |- *.
  rewrite !append_assoc in IH. cbn [String.append] in IH.
  rewrite IH. change (map write_unsigned (c :: c' :: cs))
    with (write_unsigned c :: map write_unsigned (c' :: cs)).
  change (join (?p :: map write_unsigned (c' :: cs)))
    with (p ++ String "." (join (map write_unsigned (c' :: cs))))%string.
  done.
Qed.

(** [operator<<] writes the components in decimal with a dot between each
    two of them, after what the stream holds. *)
Lemma print_join os (v : Version) :
  print os v = (os ++ join (map write_unsigned (Components v)))%string.
Proof.
  destruct v as [[|c cs]]; [unfold print; simpl; by rewrite append_nil_r|].
  unfold print. cbn [empty Components size length].
  replace (S (length cs) - 1)%nat with (length cs) by lia.
  change (at_ (mk (c :: cs)) 0) with c.
  apply (print_loop_join cs [] c os).
Qed.

Lemma parseVersionString_loop_written ComponentBits cs : ∀ Ranges TheVersion isValidVersion,
  length Ranges = length cs →
  Forall (λ c, c < 2 ^ ComponentBits ∧ c < 2 ^ 64) cs →
  parseVersionString_loop ComponentBits (zip (map write_unsigned cs) Ranges)
    TheVersion isValidVersion
  = (mk (Components TheVersion ++ cs), isValidVersion).
Proof.
  induction cs as [|c cs IH]; intros [|R Ranges] v b HL HF; simpl in HL; try done.
  - simpl. rewrite app_nil_r. by destruct v.
  - inversion HF as [|? ? [HW H64] HF']; subst.
    cbn [map zip zip_with parseVersionString_loop].
    destruct (write_unsigned c) eqn:E; [by apply write_unsigned_digits in E|].
    rewrite <- E, getAsInteger_write_unsigned by done.
    rewrite IH by (done || lia). unfold push_back. cbn [Components].
    by rewrite N.mod_small, <- app_assoc.
Qed.

Lemma join_nonempty Part Parts : Part ≠ EmptyString → join (Part :: Parts) ≠ EmptyString.
Proof. destruct Parts, Part; done. Qed.

(** X13, printing and parsing: [parseVersionString] reads back every
    non-empty version from the text [operator<<] writes for it, provided the
    components fit the element type of [Components] and 64 bits. *)
Theorem parse_what_was_printed ComponentBits (v : Version) Loc :
  empty v = false →
  Forall (λ c, c < 2 ^ ComponentBits ∧ c < 2 ^ 64) (Components v) →
  parseVersionString ComponentBits (print EmptyString v) Loc = Some v.
Proof.
  intros HE HF. rewrite print_join. cbn [String.append].
  destruct v as [[|c cs]]; [done|]. cbn [Components] in *.
  unfold parseVersionString.
  destruct (join (map write_unsigned (c :: cs))) eqn:E.
  { by apply (join_nonempty _ _ (proj2 (write_unsigned_digits c))) in E. }
  rewrite <- E. clear E. unfold splitVersionComponents.
  edestruct (split_loop_join (map write_unsigned (c :: cs))) as (Ranges & -> & HL).
  - apply Forall_map. eapply Forall_impl; [exact HF|]. intros x _. simpl.
    split; [apply all_digits_dot_free|]; apply write_unsigned_digits.
  - reflexivity.
  - rewrite length_map in HL. cbn [app].
    by rewrite parseVersionString_loop_written.
Qed.

(** ** What [splitVersionComponents] and [parseVersionString] accept *)

Lemma join_cons2 Part Part' More :
  join (Part :: Part' :: More) = (Part ++ String "." (join (Part' :: More)))%string.
Proof. done. Qed.

(** The loop on an arbitrary text. *)
Lemma split_loop_parts fuel : ∀ VersionString,
  (String.length VersionString ≤ fuel)%nat →
  ∃ Parts,
    (∀ SplitComponents Loc Start End, ∃ Ranges,
       split_loop fuel SplitComponents VersionString Loc Start End
       = (SplitComponents ++ zip Parts Ranges, EmptyString)
       ∧ length Ranges = length Parts)
    ∧ (VersionString ≠ EmptyString → Parts ≠ [])
    ∧ Forall (λ Part, dot_free Part = true) Parts
    ∧ (VersionString = join Parts
       ∨ VersionString = (join Parts ++ String "." EmptyString)%string).
Proof.
  induction fuel as [|fuel IH]; intros Str Hf.
  { destruct Str; [|simpl in Hf; lia]. exists []. split; [|by auto].
    intros SC Loc St En. exists []. by rewrite app_nil_r. }
  destruct Str as [|c Str].
  { exists []. split; [|by auto]. intros SC Loc St En. exists []. by rewrite app_nil_r. }
  pose proof (split_spec (String c Str)) as HS.
  destruct (split "." (String c Str)) as [Before After] eqn:E.
  destruct HS as (HD & HJ & _ & HL). specialize (HL ltac:(done)).
  destruct (IH After ltac:(simpl in *; lia)) as (Parts & HR & HN & HF & HP).
  exists (Before :: Parts). split; [|split; [done|split; [by constructor|]]].
  - intros SC Loc St En. cbn [split_loop]. rewrite E.
    edestruct HR as (Ranges & -> & HLen). eexists (_ :: Ranges).
    rewrite <- app_assoc. split; [reflexivity|]. simpl. by rewrite HLen.
  - destruct Parts as [|Part More].
    + destruct After; [|by destruct HN]. destruct HJ as [[-> _]| ->]; [by left|by right].
    + destruct HJ as [[_ ->]| ->].
      { destruct (HR [] 0 0 0) as ([|R Ranges] & HE & HLen); [done|].
        by destruct fuel. }
      rewrite join_cons2. destruct HP as [->| ->]; [by left|right].
      by rewrite append_assoc.
Qed.

Lemma split_components (VersionString : string) :
  ∃ Parts,
    Forall (λ Part, dot_free Part = true) Parts
    ∧ (VersionString = join Parts
       ∨ VersionString = (join Parts ++ String "." EmptyString)%string)
    ∧ (VersionString ≠ EmptyString → Parts ≠ [])
    ∧ ∀ SplitComponents Loc skipQuote, ∃ Ranges,
        splitVersionComponents SplitComponents VersionString Loc skipQuote
        = (SplitComponents ++ zip Parts Ranges, EmptyString)
        ∧ length Ranges = length Parts.
Proof.
  destruct (split_loop_parts (String.length VersionString) VersionString ltac:(done))
    as (Parts & HR & HN & HF & HP).
  exists Parts. repeat split; try done.
  intros SC Loc skipQuote. unfold splitVersionComponents. apply HR.
Qed.

(** X14, splitting at the dots: [splitVersionComponents] takes the whole
    text and appends one entry for each component.  The components hold no
    dot; with dots between them they give the text back, up to one dot at
    its end; and they are the same for every location and with or without
    [skipQuote]. *)
Theorem split_then_join (VersionString : string) :
  ∃ Parts,
    Forall (λ Part, dot_free Part = true) Parts
    ∧ (VersionString = join Parts
       ∨ VersionString = (join Parts ++ String "." EmptyString)%string)
    ∧ (VersionString ≠ EmptyString → Parts ≠ [])
    ∧ ∀ SplitComponents Loc skipQuote, ∃ Ranges,
        splitVersionComponents SplitComponents VersionString Loc skipQuote
        = (SplitComponents ++ zip Parts Ranges, EmptyString)
        ∧ length Ranges = length Parts.
Proof. exact (split_components VersionString). Qed.

Lemma split_loop_join_dot Parts : ∀ fuel SplitComponents Loc Start End,
  Parts ≠ [] →
  Forall (λ Part, dot_free Part = true ∧ Part ≠ EmptyString) Parts →
  (String.length (join Parts ++ String "." EmptyString) ≤ fuel)%nat →
  ∃ Ranges,
    split_loop fuel SplitComponents (join Parts ++ String "." EmptyString) Loc Start End
    = (SplitComponents ++ zip Parts Ranges, EmptyString)
    ∧ length Ranges = length Parts.
Proof.
  induction Parts as [|Part [|Part' More] IH]; intros fuel SC Loc Start End HNE HP Hf;
    [done|..].
  - inversion HP as [|? ? [HD HN] _]; subst. cbn [join] in *.
    rewrite length_append in Hf. cbn [String.length] in Hf.
    destruct fuel as [|fuel]; [lia|]. cbn [split_loop].
    destruct (Part ++ String "." "")%string eqn:E; [by destruct Part|]. rewrite <- E. clear E.
    rewrite (split_at_dot _ _ HD). eexists [_]. split; [|done]. by destruct fuel.
  - inversion HP as [|? ? [HD HN] HP']; subst.
    rewrite join_cons2, append_assoc in *. cbn [String.append] in *.
    rewrite length_append in Hf. cbn [String.length] in Hf.
    destruct fuel as [|fuel]; [lia|]. cbn [split_loop].
    destruct (Part ++ String "." (join (Part' :: More) ++ String "." ""))%string eqn:E;
      [by destruct Part|]. rewrite <- E. clear E.
    rewrite (split_at_dot _ _ HD).
    edestruct (IH fuel) as (Ranges & -> & HL); [done|exact HP'|lia|].
    eexists (_ :: Ranges). rewrite <- app_assoc. split; [reflexivity|]. simpl. by rewrite HL.
Qed.

Lemma consume_all_digits Str : ∀ Result n,
  consumeUnsignedInteger Str Result = Some n → all_digits Str = true.
Proof.
  induction Str as [|c Str IH]; intros Result n; simpl; [done|].
  destruct (CharVal c); [|done]. destruct (_ <? _); [done|]. apply IH.
Qed.

Lemma getAsInteger_digits Str n :
  getAsInteger Str = Some n → Str ≠ EmptyString ∧ all_digits Str = true.
Proof.
  destruct Str as [|c Str]; [done|]. intros H. split; [done|].
  by apply consume_all_digits in H.
Qed.

Lemma parseVersionString_loop_false ComponentBits SplitComponents : ∀ TheVersion,
  (parseVersionString_loop ComponentBits SplitComponents TheVersion false).2 = false.
Proof.
  induction SplitComponents as [|[[|c Str] R] More IH]; intros v;
    cbn [parseVersionString_loop]; [done|apply IH|].
  destruct (getAsInteger (String c Str)); apply IH.
Qed.

Lemma parseVersionString_loop_Some ComponentBits Parts ns : ∀ Ranges TheVersion isValidVersion,
  length Ranges = length Parts →
  Forall2 (λ Part n, getAsInteger Part = Some n) Parts ns →
  parseVersionString_loop ComponentBits (zip Parts Ranges) TheVersion isValidVersion
  = (mk (Components TheVersion ++ map (λ n, n mod 2 ^ ComponentBits) ns), isValidVersion).
Proof.
  intros Ranges v b HL HF. revert Ranges v HL.
  induction HF as [|Part n Parts ns Hn HF IH]; intros [|R Ranges] v HL; simpl in HL; try done.
  - simpl. rewrite app_nil_r. by destruct v.
  - cbn [zip zip_with parseVersionString_loop].
    destruct Part as [|c Part]; [done|]. rewrite Hn, IH by lia.
    unfold push_back. cbn [Components map]. by rewrite <- app_assoc.
Qed.

Lemma parseVersionString_loop_true ComponentBits Parts : ∀ Ranges TheVersion isValidVersion v',
  length Ranges = length Parts →
  parseVersionString_loop ComponentBits (zip Parts Ranges) TheVersion isValidVersion
  = (v', true) →
  ∃ ns, Forall2 (λ Part n, getAsInteger Part = Some n) Parts ns
        ∧ v' = mk (Components TheVersion ++ map (λ n, n mod 2 ^ ComponentBits) ns).
Proof.
  induction Parts as [|Part Parts IH]; intros [|R Ranges] v b v' HL; simpl in HL; try done.
  - simpl. intros [= <- _]. exists []. split; [constructor|].
    simpl. rewrite app_nil_r. by destruct v.
  - cbn [zip zip_with parseVersionString_loop].
    assert (∀ w, parseVersionString_loop ComponentBits (zip Parts Ranges) w false ≠ (v', true))
      as HFalse.
    { intros w H. pose proof (parseVersionString_loop_false ComponentBits (zip Parts Ranges) w)
        as H'. by rewrite H in H'. }
    destruct Part as [|c Part]; [intros H; by apply HFalse in H|].
    destruct (getAsInteger (String c Part)) as [n|] eqn:Hn; [|intros H; by apply HFalse in H].
    intros H. apply IH in H as (ns & HF & ->); [|lia].
    exists (n :: ns). split; [by constructor|].
    unfold push_back. cbn [Components map]. by rewrite <- app_assoc.
Qed.

Lemma parseVersionString_accepts_getAsInteger ComponentBits VersionString Loc (v : Version) :
  parseVersionString ComponentBits VersionString Loc = Some v ↔
  ∃ Parts ns,
    Parts ≠ []
    ∧ Forall2 (λ Part n, getAsInteger Part = Some n) Parts ns
    ∧ Forall (λ Part, Part ≠ EmptyString ∧ all_digits Part = true) Parts
    ∧ (VersionString = join Parts
       ∨ VersionString = (join Parts ++ String "." EmptyString)%string)
    ∧ v = mk (map (λ n, n mod 2 ^ ComponentBits) ns).
Proof.
  split.
  - unfold parseVersionString. destruct VersionString as [|c Str]; [done|].
    destruct (split_components (String c Str)) as (Parts & HD & HJ & HN & HR).
    destruct (HR [] Loc false) as (Ranges & -> & HL). cbn [app].
    destruct (parseVersionString_loop _ _ _ _) as [v' b] eqn:E.
    destruct b; [|done]. intros [= ->].
    apply parseVersionString_loop_true in E as (ns & HF & ->); [|done].
    exists Parts, ns. split; [by apply HN|]. split; [done|]. split; [|done].
    clear -HF. induction HF as [|? ? ? ? H]; constructor; [|done].
    by apply getAsInteger_digits in H.
  - intros (Parts & ns & HNE & HF & HA & HJ & ->).
    assert (Forall (λ Part, dot_free Part = true ∧ Part ≠ EmptyString) Parts) as HP.
    { eapply Forall_impl; [exact HA|]. intros p [? ?]. split; [by apply all_digits_dot_free|done]. }
    assert (VersionString ≠ EmptyString) as HS.
    { destruct Parts as [|p ps]; [done|]. inversion HA as [|? ? [Hp _] _]; subst.
      destruct HJ as [->| ->]; [by apply join_nonempty|].
      intros H. by destruct (join (p :: ps)). }
    unfold parseVersionString. destruct VersionString as [|c Str]; [done|].
    unfold splitVersionComponents.
    assert (∃ Ranges, split_loop (String.length (String c Str)) [] (String c Str) Loc
                        (if isValid Loc && false then getAdvancedLoc Loc 1 else Loc)
                        (if isValid Loc && false then getAdvancedLoc Loc 1 else Loc)
                      = ([] ++ zip Parts Ranges, EmptyString)
                      ∧ length Ranges = length Parts) as (Ranges & -> & HL).
    { destruct HJ as [->| ->]; [by apply split_loop_join|by apply split_loop_join_dot]. }
    cbn [app]. by rewrite (parseVersionString_loop_Some _ _ ns).
Qed.

(** [getAsInteger] reads the number the digits denote, and fails exactly
    when that number does not fit 64 bits. *)
Lemma decimal_from_ge Str : ∀ Acc, Acc ≤ decimal_from Acc Str.
Proof.
  induction Str as [|c Str IH]; intros Acc; simpl; [lia|].
  specialize (IH (Acc * 10 + (N_of_ascii c - 48))). lia.
Qed.

Lemma CharVal_value c m : CharVal c = Some m → m = N_of_ascii c - 48 ∧ m < 10.
Proof.
  unfold CharVal.
  destruct (N.leb_spec 48 (N_of_ascii c)), (N.leb_spec (N_of_ascii c) 57);
    simpl; intros [= <-]; lia.
Qed.

Lemma wrapped_is_smaller Result m :
  m < 10 → 2 ^ 64 ≤ Result * 10 + m → (Result * 10 + m) mod 2 ^ 64 / 10 < Result.
Proof.
  intros Hm HT. apply N.Div0.div_lt_upper_bound.
  pose proof (N.Div0.div_mod (Result * 10 + m) (2 ^ 64)) as HD.
  assert (1 ≤ (Result * 10 + m) / 2 ^ 64) as Hq
    by (apply N.div_le_lower_bound; [done|lia]).
  assert (2 ^ 64 ≤ 2 ^ 64 * ((Result * 10 + m) / 2 ^ 64)) as HM.
  { rewrite <- (N.mul_1_r (2 ^ 64)) at 1. by apply N.mul_le_mono_l. }
  assert ((10 : N) < 2 ^ 64) by done. lia.
Qed.

Lemma consume_decimal Str : ∀ Result,
  Result < 2 ^ 64 → all_digits Str = true →
  consumeUnsignedInteger Str Result
  = if decimal_from Result Str <? 2 ^ 64 then Some (decimal_from Result Str) else None.
Proof.
  induction Str as [|c Str IH]; intros Result HR HD.
  - cbn [consumeUnsignedInteger decimal_from].
    by rewrite (proj2 (N.ltb_lt _ _) HR).
  - cbn [consumeUnsignedInteger decimal_from all_digits] in HD |- *.
    destruct (CharVal c) as [m|] eqn:E; [|done].
    destruct (CharVal_value _ _ E) as [Hv Hm]. rewrite <- Hv.
    destruct (N.lt_ge_cases (Result * 10 + m) (2 ^ 64)) as [HT|HT].
    + rewrite (N.mod_small _ _ HT).
      replace ((Result * 10 + m) / 10) with Result
        by (apply (N.div_unique _ 10 Result m); lia).
      rewrite N.ltb_irrefl. by apply IH.
    + rewrite (proj2 (N.ltb_lt _ _) (wrapped_is_smaller Result m Hm HT)).
      pose proof (decimal_from_ge Str (Result * 10 + m)) as HG.
      destruct (N.ltb_spec (decimal_from (Result * 10 + m) Str) (2 ^ 64)); [lia|done].
Qed.

Lemma getAsInteger_decimal Part n :
  getAsInteger Part = Some n ↔
  (Part ≠ EmptyString ∧ all_digits Part = true ∧ decimal Part < 2 ^ 64) ∧ n = decimal Part.
Proof.
  split.
  - intros H. destruct (getAsInteger_digits _ _ H) as [HN HD].
    destruct Part as [|c Str]; [done|]. unfold getAsInteger in H.
    rewrite consume_decimal in H by done. fold (decimal (String c Str)) in H.
    destruct (N.ltb_spec (decimal (String c Str)) (2 ^ 64)); [|done].
    by inversion H.
  - intros [(HN & HD & HB) ->]. destruct Part as [|c Str]; [done|].
    unfold getAsInteger. rewrite consume_decimal by done.
    fold (decimal (String c Str)). by rewrite (proj2 (N.ltb_lt _ _) HB).
Qed.

Lemma Forall2_getAsInteger Parts ns :
  Forall2 (λ Part n, getAsInteger Part = Some n) Parts ns ↔
  Forall (λ Part, Part ≠ EmptyString ∧ all_digits Part = true ∧ decimal Part < 2 ^ 64) Parts
  ∧ ns = map decimal Parts.
Proof.
  split.
  - induction 1 as [|Part n Parts ns H _ [IH1 IH2]]; [done|].
    apply getAsInteger_decimal in H as [H ->]. split; [by constructor|].
    cbn [map]. by f_equal.
  - intros [HF ->]. induction HF as [|Part Parts H _ IH]; cbn [map]; constructor; [|done].
    by apply getAsInteger_decimal.
Qed.

(** X15, what [parseVersionString] accepts: exactly the texts made of one or
    more components with a dot between each two of them, and possibly one
    more dot at the end, where every component is a text of one or more
    decimal digits that denotes a number below [2 ^ 64]; the result holds the
    numbers the components denote, converted to the element type.  Every
    other text, the empty one included, gives [None]. *)
Theorem parseVersionString_accepts_exactly ComponentBits VersionString Loc (v : Version) :
  parseVersionString ComponentBits VersionString Loc = Some v ↔
  ∃ Parts,
    Parts ≠ []
    ∧ Forall (λ Part, Part ≠ EmptyString ∧ all_digits Part = true ∧ decimal Part < 2 ^ 64)
        Parts
    ∧ (VersionString = join Parts
       ∨ VersionString = (join Parts ++ String "." EmptyString)%string)
    ∧ v = mk (map (λ Part, decimal Part mod 2 ^ ComponentBits) Parts).
Proof.
  rewrite parseVersionString_accepts_getAsInteger. split.
  - intros (Parts & ns & HNE & HF & _ & HJ & ->).
    apply Forall2_getAsInteger in HF as [HF ->].
    exists Parts. by rewrite map_map.
  - intros (Parts & HNE & HF & HJ & ->).
    exists Parts, (map decimal Parts). split; [done|].
    split; [by apply Forall2_getAsInteger|]. split.
    + eapply Forall_impl; [exact HF|]. by intros p (? & ? & _).
    + split; [done|]. by rewrite map_map.
Qed.

(** The largest number that is read, the first that is not, and a number
    with zeros in front. *)
Example parseVersionString_at_the_bound :
  parseVersionString 64 "18446744073709551615.007" 0
  = Some (mk [18446744073709551615; 7])
  ∧ parseVersionString 64 "18446744073709551616" 0 = None
  ∧ decimal "18446744073709551616" = 2 ^ 64.
Proof. repeat split; vm_compute; reflexivity. Qed.

(** ** [parseCompilerVersionString] *)

Lemma at_push_back ComponentBits (CV : Version) x j :
  at_ (push_back ComponentBits CV x) j
  = if (j =? size CV)%nat then x mod 2 ^ ComponentBits else at_ CV j.
Proof.
  unfold at_, push_back, size. cbn [Components].
  destruct (Nat.eqb_spec j (length (Components CV))) as [->|Hj].
  - by rewrite nth_middle.
  - destruct (Nat.lt_ge_cases j (length (Components CV))).
    + by rewrite app_nth1.
    + rewrite !nth_overflow; [done|lia|]. rewrite length_app. simpl. lia.
Qed.

Lemma narrow_le ComponentBits n :
  ComponentBits ≤ 32 → n mod 2 ^ ComponentBits ≤ n mod 2 ^ 32.
Proof.
  intros HW. replace 32 with (ComponentBits + (32 - ComponentBits)) at 1 by lia.
  rewrite N.pow_add_r, N.Div0.mod_mul_r. apply N.le_add_r.
Qed.

Lemma parseCompilerVersionString_loop_range ComponentBits SplitComponents :
  ComponentBits ≤ 32 → ∀ i CV CV',
  parseCompilerVersionString_loop ComponentBits SplitComponents i CV = Some CV' →
  size CV = i →
  at_ CV 0 ≤ 9223371 ∧ at_ CV 1 = 0 ∧ (∀ j, (2 ≤ j)%nat → at_ CV j ≤ 999) →
  at_ CV' 0 ≤ 9223371 ∧ at_ CV' 1 = 0 ∧ (∀ j, (2 ≤ j)%nat → at_ CV' j ≤ 999).
Proof.
  intros HW. induction SplitComponents as [|[Part R] More IH]; intros i CV CV' H Hi Inv.
  { simpl in H. by injection H as <-. }
  cbn [parseCompilerVersionString_loop] in H.
  destruct Part as [|c Part]; [done|].
  destruct Inv as (I0 & I1 & I2).
  destruct (Nat.eqb_spec i 1) as [->|Hi1].
  - destruct (String.eqb _ _); [|done]. apply IH in H; [done| |].
    + unfold size, push_back in *. cbn [Components]. rewrite length_app. simpl. lia.
    + repeat split; [| |intros j Hj]; rewrite at_push_back, Hi; simpl; auto.
      destruct (Nat.eqb_spec j 1); [lia|auto].
  - destruct (getAsInteger _) as [n|]; [|done].
    destruct (checkVersionComponent CV n) eqn:HC; [|done].
    apply IH in H; [done| |].
    + unfold size, push_back in *. cbn [Components]. rewrite length_app. simpl. lia.
    + unfold checkVersionComponent in HC. apply negb_true_iff, N.ltb_ge in HC.
      pose proof (narrow_le ComponentBits n HW) as HN.
      repeat split; [| |intros j Hj]; rewrite at_push_back, Hi.
      * destruct (Nat.eqb_spec 0 i) as [<-|]; [|done]. rewrite Hi in HC. simpl in HC. lia.
      * destruct (Nat.eqb_spec 1 i); [lia|done].
      * destruct (Nat.eqb_spec j i) as [->|]; [|auto].
        destruct (Nat.eqb_spec (size CV) 0); [lia|]. lia.
Qed.

(** X16, the ranges of a compiler version: when [parseCompilerVersionString]
    returns (it does not hit [llvm_unreachable]), and the element type of
    [Components] is at most 32 bits wide, the version has at most 5
    components, the first is at most 9223371, the second is 0, and every
    further one is at most 999. *)
Theorem compiler_version_in_range ComponentBits VersionString Loc (CV : Version) :
  ComponentBits ≤ 32 →
  parseCompilerVersionString ComponentBits VersionString Loc = Some CV →
  (size CV ≤ 5)%nat
  ∧ at_ CV 0 ≤ 9223371
  ∧ at_ CV 1 = 0
  ∧ ∀ j, (2 ≤ j)%nat → at_ CV j ≤ 999.
Proof.
  intros HW. unfold parseCompilerVersionString.
  destruct (splitVersionComponents _ _ _ _) as [SplitComponents Rest].
  destruct (parseCompilerVersionString_loop _ _ _ _) as [CV'|] eqn:E; [|done].
  destruct (Nat.ltb_spec 5 (size CV')); [done|]. intros [= ->]. split; [lia|].
  eapply parseCompilerVersionString_loop_range; [exact HW|exact E|done|].
  repeat split; [done|]. intros j Hj. unfold at_. simpl. by destruct j.
Qed.

(** ** [preprocessorDefinition] *)

Lemma versionConstant_loop_sum ws cs : ∀ pre_w pre_c versionConstant,
  length pre_w = length pre_c → versionConstant < 2 ^ 64 →
  versionConstant_loop (pre_w ++ ws) (mk (pre_c ++ cs)) (length pre_w)
    (min (length ws) (length cs)) versionConstant
  = (versionConstant + foldr N.add 0 (zip_with N.mul ws cs)) mod 2 ^ 64.
Proof.
  revert cs. induction ws as [|w ws IH]; intros [|c cs] pre_w pre_c acc HL Hacc;
    cbn [length Nat.min versionConstant_loop zip_with foldr];
    try (rewrite N.add_0_r, N.mod_small; done).
  replace (nth (length pre_w) (pre_w ++ w :: ws) 0) with w by (by rewrite nth_middle).
  replace (at_ (mk (pre_c ++ c :: cs)) (length pre_w)) with c
    by (unfold at_; cbn [Components]; by rewrite HL, nth_middle).
  specialize (IH cs (pre_w ++ [w]) (pre_c ++ [c])).
  rewrite <- !app_assoc, !length_app in IH. cbn [app length] in IH.
  replace (length pre_w + 1)%nat with (S (length pre_w)) in IH by lia.
  rewrite IH; [|lia|by apply N.mod_lt].
  rewrite N.Div0.add_mod_idemp_l.
  replace (acc + (w * c) mod 2 ^ 64 + foldr N.add 0 (zip_with N.mul ws cs))
    with ((w * c) mod 2 ^ 64 + (acc + foldr N.add 0 (zip_with N.mul ws cs))) by ring.
  rewrite N.Div0.add_mod_idemp_l. f_equal. ring.
Qed.

(** X17, the macro definition: [preprocessorDefinition] gives the text
    [-D], the name of the macro, [=] and a decimal number; the number is the
    sum of the products of the weights and the components, position by
    position as far as both reach, in 64-bit arithmetic, and reading that
    text with [getAsInteger] gives the number back. *)
Theorem preprocessorDefinition_is_weighted_sum (v : Version) macroName componentWeights :
  let versionConstant :=
    foldr N.add 0 (zip_with N.mul componentWeights (Components v)) mod 2 ^ 64 in
  preprocessorDefinition v macroName componentWeights
  = ("-D" ++ macroName ++ String "=" EmptyString ++ write_unsigned versionConstant)%string
  ∧ getAsInteger (write_unsigned versionConstant) = Some versionConstant.
Proof.
  intros K. split.
  - unfold preprocessorDefinition, K. do 3 f_equal.
    destruct v as [cs]. unfold size. cbn [Components].
    f_equal. exact (versionConstant_loop_sum componentWeights cs [] [] 0 eq_refl eq_refl).
  - apply getAsInteger_write_unsigned. apply N.mod_lt. done.
Qed.

(** ** The source ranges of the components *)

Lemma substring_prefix (p t : string) : substring 0 (String.length p) (p ++ t) = p.
Proof. induction p as [|c p IH]; simpl; [by destruct t|]. by rewrite IH. Qed.

Lemma substring_skip (p t : string) n m :
  substring (String.length p + n) m (p ++ t) = substring n m t.
Proof. induction p as [|c p IH]; simpl; [done|]. by rewrite IH. Qed.

Lemma substring_whole (p : string) : substring 0 (String.length p) p = p.
Proof. induction p as [|c p IH]; simpl; [done|]. by rewrite IH. Qed.

Lemma split_loop_ranges fuel : ∀ VersionString SplitComponents Loc Start,
  (String.length VersionString ≤ fuel)%nat → isValid Loc = true →
  ∃ New,
    split_loop fuel SplitComponents VersionString Loc Start Start
    = (SplitComponents ++ New, EmptyString)
    ∧ Forall (λ e, Start ≤ e.2.1
                   ∧ e.2.2 = e.2.1 + N.of_nat (String.length e.1)
                   ∧ substring (N.to_nat (e.2.1 - Start)) (String.length e.1) VersionString
                     = e.1) New.
Proof.
  induction fuel as [|fuel IH]; intros Str SC Loc St Hf HV.
  { destruct Str; [|simpl in Hf; lia]. exists []. by rewrite app_nil_r. }
  destruct Str as [|c Str].
  { exists []. by rewrite app_nil_r. }
  pose proof (split_spec (String c Str)) as HS.
  cbn [split_loop]. destruct (split "." (String c Str)) as [Before After] eqn:E.
  destruct HS as (HD & HJ & _ & HL). specialize (HL ltac:(done)).
  rewrite HV. unfold getAdvancedLoc.
  destruct HJ as [[HB ->]|HJ].
  { exists [(Before, (St, St + N.of_nat (String.length Before)))].
    split; [by destruct fuel|]. constructor; [|done]. cbn [fst snd].
    split; [lia|]. split; [done|]. rewrite N.sub_diag, <- HB. apply substring_whole. }
  edestruct (IH After (SC ++ [(Before, (St, St + N.of_nat (String.length Before)))]) Loc
               (St + N.of_nat (String.length Before) + N.of_nat 1))
    as (New & -> & HF); [simpl in *; lia|done|].
  eexists (_ :: New). rewrite <- app_assoc. split; [reflexivity|].
  rewrite HJ. constructor.
  - cbn [fst snd]. split; [lia|]. split; [done|].
    rewrite N.sub_diag. apply substring_prefix.
  - eapply Forall_impl; [exact HF|]. intros [Part [a b]]. cbn [fst snd].
    intros (H1 & H2 & H3). split; [lia|]. split; [done|].
    rewrite <- H3 at 2.
    replace (N.to_nat (a - St))
      with (String.length Before + S (N.to_nat (a - (St + N.of_nat (String.length Before)
                                                   + N.of_nat 1))))%nat by lia.
    by rewrite substring_skip.
Qed.

Lemma split_loop_no_ranges fuel : ∀ VersionString SplitComponents Loc Start End,
  isValid Loc = false →
  ∃ New,
    split_loop fuel SplitComponents VersionString Loc Start End
    = (SplitComponents ++ New, (split_loop fuel SplitComponents VersionString Loc Start End).2)
    ∧ Forall (λ e, e.2 = NoRange) New.
Proof.
  induction fuel as [|fuel IH]; intros Str SC Loc St En HV.
  { exists []. by rewrite app_nil_r. }
  destruct Str as [|c Str].
  { exists []. by rewrite app_nil_r. }
  cbn [split_loop]. destruct (split "." (String c Str)) as [Before After].
  rewrite HV. edestruct (IH After (SC ++ [(Before, NoRange)]) Loc En En) as (New & HE & HF);
    [done|]. rewrite HE. cbn [snd]. eexists (_ :: New). rewrite <- app_assoc.
  split; [reflexivity|]. by constructor.
Qed.

(** X18, the ranges point at the components: when the location is valid,
    the range [splitVersionComponents] records with a component starts at or
    after the start of the text (one further when a quote is skipped), is as
    long as the component, and the text holds the component at that place;
    when the location is invalid, every range is the invalid one. *)
Theorem ranges_delimit_components (VersionString : string) SplitComponents Loc skipQuote :
  ∃ New Rest,
    splitVersionComponents SplitComponents VersionString Loc skipQuote
    = (SplitComponents ++ New, Rest)
    ∧ if isValid Loc then
        let Start := if skipQuote then getAdvancedLoc Loc 1 else Loc in
        Forall (λ e, Start ≤ e.2.1
                     ∧ e.2.2 = e.2.1 + N.of_nat (String.length e.1)
                     ∧ substring (N.to_nat (e.2.1 - Start)) (String.length e.1) VersionString
                       = e.1) New
      else Forall (λ e, e.2 = NoRange) New.
Proof.
  unfold splitVersionComponents. destruct (isValid Loc) eqn:HV.
  - cbn [andb].
    edestruct (split_loop_ranges (String.length VersionString) VersionString SplitComponents Loc)
      as (New & -> & HF); [done|exact HV|].
    by exists New, EmptyString.
  - cbn [andb].
    edestruct (split_loop_no_ranges (String.length VersionString) VersionString
                 SplitComponents Loc Loc Loc HV) as (New & HE & HF).
    exists New. eexists. split; [exact HE|done].
Qed.

Lemma parse_what_was_printed_witness :
  empty (mk [3; 1; 1]) = false
  ∧ Forall (λ c, c < 2 ^ 32 ∧ c < 2 ^ 64) (Components (mk [3; 1; 1]))
  ∧ parseVersionString 32 (print EmptyString (mk [3; 1; 1])) 0 = Some (mk [3; 1; 1]).
Proof.
  split; [reflexivity|]. split; [repeat constructor|].
  apply (parse_what_was_printed 32 (mk [3; 1; 1]) 0).
  - reflexivity.
  - repeat constructor.
Defined.

Lemma compiler_version_in_range_witness :
  32 ≤ 32
  ∧ parseCompilerVersionString 32 "700.*.1" 5 = Some (mk [700; 0; 1])
  ∧ (size (mk [700; 0; 1]%N) ≤ 5)%nat
  ∧ at_ (mk [700; 0; 1]) 0 ≤ 9223371
  ∧ at_ (mk [700; 0; 1]) 1 = 0
  ∧ ∀ j, (2 ≤ j)%nat → at_ (mk [700; 0; 1]) j ≤ 999.
Proof.
  split; [reflexivity|]. split; [reflexivity|].
  apply (compiler_version_in_range 32 "700.*.1" 5 (mk [700; 0; 1])).
  - lia.
  - reflexivity.
Defined.

End version_facts.

(** * Facts of [CharInfo.h] *)

Module charinfo_facts.
Import charinfo.

Lemma flag_test_lor a f g :
  negb (N.land a (N.lor f g) =? 0) = negb (N.land a f =? 0) || negb (N.land a g =? 0).
Proof.
  rewrite N.land_lor_distr_r.
  destruct (N.eqb_spec (N.land a f) 0) as [->|Hf]; simpl; [done|].
  destruct (N.eqb_spec (N.lor (N.land a f) (N.land a g)) 0) as [H0|]; [|done].
  apply N.lor_eq_0_iff in H0 as [? _]. done.
Qed.

(** X19, a letter is an uppercase or a lowercase character, whatever the
    table holds: [isLetter] answers as [isUppercase] or [isLowercase] do. *)
Theorem isLetter_is_upper_or_lower (InfoTable : N → N) (c : N) :
  isLetter InfoTable c = isUppercase InfoTable c || isLowercase InfoTable c.
Proof. apply flag_test_lor. Qed.

Lemma lower_byte c : c < 224 → (c + 97 - 65) mod 256 = c + 32.
Proof. intros. rewrite N.mod_small; lia. Qed.

Lemma upper_byte c : 32 ≤ c < 256 → (c + 256 + 65 - 97) mod 256 = c - 32.
Proof.
  intros. replace (c + 256 + 65 - 97) with (c - 32 + 1 * 256) by lia.
  rewrite N.Div0.mod_add, N.mod_small; lia.
Qed.

(** X20, case conversion, for a table that marks [A-Z] as uppercase and
    [a-z] as lowercase: [toLowercase] takes an uppercase letter to a
    lowercase one from which [toUppercase] gives it back, and the other way
    round; no result of [toLowercase] is uppercase and none of
    [toUppercase] lowercase, so both are idempotent; a character that is
    not a letter is left as it is by both. *)
Theorem case_conversion_round_trip (InfoTable : N → N) (c : N) :
  documented_case InfoTable → c < 256 →
  (isUppercase InfoTable c = true →
     isLowercase InfoTable (toLowercase InfoTable c) = true
     ∧ toUppercase InfoTable (toLowercase InfoTable c) = c)
  ∧ (isLowercase InfoTable c = true →
     isUppercase InfoTable (toUppercase InfoTable c) = true
     ∧ toLowercase InfoTable (toUppercase InfoTable c) = c)
  ∧ isUppercase InfoTable (toLowercase InfoTable c) = false
  ∧ isLowercase InfoTable (toUppercase InfoTable c) = false
  ∧ toLowercase InfoTable (toLowercase InfoTable c) = toLowercase InfoTable c
  ∧ toUppercase InfoTable (toUppercase InfoTable c) = toUppercase InfoTable c
  ∧ (isLetter InfoTable c = false →
     toLowercase InfoTable c = c ∧ toUppercase InfoTable c = c).
Proof.
  intros HT Hc.
  assert (HU : ∀ d, d < 256 → isUppercase InfoTable d = true ↔ 65 ≤ d ≤ 90)
    by (intros d Hd; apply (HT d Hd)).
  assert (HL : ∀ d, d < 256 → isLowercase InfoTable d = true ↔ 97 ≤ d ≤ 122)
    by (intros d Hd; apply (HT d Hd)).
  assert (Hlow : isUppercase InfoTable (toLowercase InfoTable c) = false).
  { unfold toLowercase. destruct (isUppercase InfoTable c) eqn:E; [|done].
    apply HU in E; [|done]. rewrite lower_byte by lia.
    apply not_true_is_false. intros H. apply HU in H; lia. }
  assert (Hup : isLowercase InfoTable (toUppercase InfoTable c) = false).
  { unfold toUppercase. destruct (isLowercase InfoTable c) eqn:E; [|done].
    apply HL in E; [|done]. rewrite upper_byte by lia.
    apply not_true_is_false. intros H. apply HL in H; lia. }
  split; [|split; [|split; [|split; [|split; [|split]]]]].
  - intros H. pose proof H as H'. apply HU in H'; [|done].
    unfold toLowercase. rewrite H, lower_byte by lia.
    assert (isLowercase InfoTable (c + 32) = true) as E by (apply HL; lia).
    split; [done|]. unfold toUppercase. rewrite E, upper_byte by lia. lia.
  - intros H. pose proof H as H'. apply HL in H'; [|done].
    unfold toUppercase. rewrite H, upper_byte by lia.
    assert (isUppercase InfoTable (c - 32) = true) as E by (apply HU; lia).
    split; [done|]. unfold toLowercase. rewrite E, lower_byte by lia. lia.
  - exact Hlow.
  - exact Hup.
  - unfold toLowercase at 1. by rewrite Hlow.
  - unfold toUppercase at 1. by rewrite Hup.
  - intros H. unfold isLetter in H. rewrite flag_test_lor in H.
    apply orb_false_iff in H as [H1 H2]. unfold toLowercase, toUppercase.
    change (isUppercase InfoTable c = false) in H1.
    change (isLowercase InfoTable c = false) in H2. by rewrite H1, H2.
Qed.

Lemma AsciiInfoTable_documented : documented_case AsciiInfoTable.
Proof.
  intros c Hc. unfold isUppercase, isLowercase, AsciiInfoTable, between.
  repeat (match goal with
          | |- context [?a <=? ?b] => destruct (N.leb_spec a b)
          end; try lia);
    cbn; split; split; (discriminate || lia || (intros; reflexivity)).
Qed.

Lemma case_conversion_round_trip_witness :
  documented_case AsciiInfoTable ∧ 65 < 256
  ∧ isUppercase AsciiInfoTable 65 = true
  ∧ toUppercase AsciiInfoTable (toLowercase AsciiInfoTable 65) = 65.
Proof.
  split; [exact AsciiInfoTable_documented|]. split; [reflexivity|].
  split; [reflexivity|].
  destruct (case_conversion_round_trip AsciiInfoTable 65 AsciiInfoTable_documented eq_refl)
    as [H _].
  apply H. reflexivity.
Defined.

End charinfo_facts.
